(** * guia_apis.py: the fetch / upsert / read-back / derive pipeline

    A shallow embedding of the sequential part of [guia_apis.py] (lines
    49-100): one HTTP GET, the [INSERT OR REPLACE] loop over the fetched
    users, the [SELECT *] read-back into a data frame and the four
    calculated columns.

    Conventions.
    - A Python [str] is a [string]; its characters are the code points
      0..255, so [len] is [String.length] and [str.lower] is the simple
      case mapping of that range.
    - A Python object held in a data-frame cell is a [pyobj].
    - An SQLite [INTEGER] is a [Z] in the signed 64-bit range; the rowid
      table [users] is a finite map from rowid to the five text columns. *)

From Stdlib Require Import ZArith String Ascii List Lia.
From stdpp Require Import base option list strings gmap fin_maps sorting pretty.

Local Open Scope string_scope.
Local Open Scope Z_scope.

(** ** Python strings *)

Module Py.

(** [len(s)] *)
Definition len (s : string) : Z := Z.of_nat (String.length s).

(** One character of [str.lower()]: [A-Z] and the upper-case letters of
    U+00C0..U+00DE (all but the multiplication sign U+00D7) move up by 32. *)
Definition lower_char (c : ascii) : ascii :=
  let n := N_of_ascii c in
  if ((65 <=? n) && (n <=? 90) || (192 <=? n) && (n <=? 222) && negb (n =? 215))%N
  then ascii_of_N (n + 32)
  else c.

(** [s.lower()] *)
Fixpoint lower (s : string) : string :=
  match s with
  | EmptyString => EmptyString
  | String c s' => String (lower_char c) (lower s')
  end.

(** [c in s] for a one-character [c] *)
Fixpoint contains (c : ascii) (s : string) : bool :=
  match s with
  | EmptyString => false
  | String d s' => if Ascii.eqb d c then true else contains c s'
  end.

(** [s.split(sep)] for a one-character separator: the pieces between the
    separators, in order; never the empty list. *)
Fixpoint split (sep : ascii) (s : string) : list string :=
  match s with
  | EmptyString => [EmptyString]
  | String c s' =>
      if Ascii.eqb c sep then EmptyString :: split sep s'
      else match split sep s' with
           | [] => [String c EmptyString]
           | p :: ps => String c p :: ps
           end
  end.

(** [l[-1]]; [None] stands for [IndexError]. *)
Definition item_last {A} (l : list A) : option A := last l.

End Py.

(** ** Cells and data frames *)

Inductive pyobj : Type :=
  | PyNone
  | PyInt (z : Z)
  | PyStr (s : string).

#[global] Instance pyobj_eq_dec : EqDecision pyobj.
Proof. solve_decision. Defined.

(** [str(o)], the conversion [Series.astype(str)] applies to each cell of an
    object column. *)
Definition str (o : pyobj) : string :=
  match o with
  | PyNone => "None"
  | PyInt z => pretty z
  | PyStr s => s
  end.

(** A data frame: its columns in order, each a label and the cells. *)
Definition DataFrame : Type := list (string * list pyobj).

(** [df[c]]; [None] stands for [KeyError]. *)
Fixpoint getitem (df : DataFrame) (c : string) : option (list pyobj) :=
  match df with
  | [] => None
  | (c', v) :: df' => if decide (c' = c) then Some v else getitem df' c
  end.

(** [df[c] = v]: the column is replaced where it stands, or appended. *)
Fixpoint setitem (df : DataFrame) (c : string) (v : list pyobj) : DataFrame :=
  match df with
  | [] => [(c, v)]
  | (c', v') :: df' =>
      if decide (c' = c) then (c', v) :: df' else (c', v') :: setitem df' c v
  end.

(** [df.columns] *)
Definition columns (df : DataFrame) : list string := df.*1.

(** [len(df)]: the length of the first column (0 without columns). *)
Definition nrows (df : DataFrame) : nat :=
  match df with
  | [] => 0%nat
  | (_, v) :: _ => length v
  end.

(** [s.astype(str)] *)
Definition astype_str (s : list pyobj) : list string := str <$> s.

(** ** Calculated columns (lines 93-100) *)

(** [lambda x: x.split('@')[-1].lower() if '@' in x else None] *)
Definition email_domain_of (x : string) : pyobj :=
  if Py.contains "@" x
  then match Py.item_last (Py.split "@" x) with
       | Some d => PyStr (Py.lower d)
       | None => PyNone
       end
  else PyNone.

(** [s.astype(str).apply(len)] *)
Definition apply_len (s : list pyobj) : list pyobj :=
  (λ x, PyInt (Py.len x)) <$> astype_str s.

(** Lines 93-100, one assignment after the other. *)
Definition columnas_calculadas (df : DataFrame) : option DataFrame :=
  name ← getitem df "name";
  let df := setitem df "name_length" (apply_len name) in
  email ← getitem df "email";
  let df := setitem df "email_domain" (email_domain_of <$> astype_str email) in
  username ← getitem df "username";
  let df := setitem df "username_length" (apply_len username) in
  name ← getitem df "name";
  let df := setitem df "company_name_length" (apply_len name) in
  Some df.

(** ** The fetched users and the [users] table *)

(** A fetched user object, read the way the loop reads it: each field is
    what [u.get(key)] returns, [None] for a missing key (or a JSON null).
    [id] is an integer and the other attributes are text. *)
Record user : Type := User {
  get_id : option Z;
  get_name : option string;
  get_username : option string;
  get_email : option string;
  get_phone : option string;
  get_website : option string
}.

(** The five [TEXT] columns of a stored row; the rowid is the key. *)
Record row : Type := Row {
  name : option string;
  username : option string;
  email : option string;
  phone : option string;
  website : option string
}.

#[global] Instance row_eq_dec : EqDecision row.
Proof. solve_decision. Defined.

(** The [VALUES (?, ?, ?, ?, ?, ?)] tuple of lines 81-82, without the id. *)
Definition values (u : user) : row :=
  {| name := get_name u; username := get_username u; email := get_email u;
     phone := get_phone u; website := get_website u |}.

(** The table [users]: [id INTEGER PRIMARY KEY] is the rowid. *)
Abbreviation table := (gmap Z row).

(** The database file: [None] before the table was ever created. *)
Definition database : Type := option table.

Inductive exception : Type :=
  | ConnectionError
  | Timeout
  | HTTPError (status : Z)
  | JSONDecodeError
  | KeyError
  | OverflowError          (* Python int too large to convert to SQLite INTEGER *)
  | OperationalError.      (* SQLITE_FULL: database or disk is full *)

#[global] Instance exception_eq_dec : EqDecision exception.
Proof. solve_decision. Defined.

(** The largest rowid, 2^63 - 1. *)
Definition MAX_ROWID : Z := 9223372036854775807.

(** The integers the sqlite3 module binds to a parameter. *)
Definition fits_int64 (z : Z) : bool := ((- MAX_ROWID - 1 <=? z) && (z <=? MAX_ROWID))%Z.

(** The largest rowid in use; [None] on an empty table. *)
Definition last_rowid (t : table) : option Z :=
  foldr (λ k acc, Some (from_option (Z.max k) k acc)) None (elements (dom t)).

(** [CREATE TABLE IF NOT EXISTS users (...)] *)
Definition create_table_if_not_exists (db : database) : table := default ∅ db.

(** The rows a connection finds in the database file. *)
Definition stored (db : database) : table := create_table_if_not_exists db.

Section sqlite.
(** SQLite's pseudo-random number generator: a state and one 64-bit draw. *)
Context {prng : Type} (sqlite3_randomness : prng → Z * prng).

(** The rowid search at saturation: up to [cnt] positive candidates drawn
    at random, the first unused one wins. *)
Fixpoint random_rowid (cnt : nat) (t : table) (g : prng) : option Z * prng :=
  match cnt with
  | O => (None, g)
  | S cnt' =>
      let '(r, g') := sqlite3_randomness g in
      let v := Z.land r (Z.shiftr MAX_ROWID 1) + 1 in
      match t !! v with
      | Some _ => random_rowid cnt' t g'
      | None => (Some v, g')
      end
  end.

(** The rowid given to a row inserted with a NULL key: 1 on an empty
    table, one more than the largest rowid in use, and a random unused
    one when that is [MAX_ROWID]; [None] is SQLITE_FULL. *)
Definition new_rowid (t : table) (g : prng) : option Z * prng :=
  match last_rowid t with
  | None => (Some 1, g)
  | Some v => if MAX_ROWID <=? v then random_rowid 100 t g else (Some (v + 1), g)
  end.

(** One [INSERT OR REPLACE INTO users ... VALUES (?, ?, ?, ?, ?, ?)]. *)
Definition insert_or_replace (u : user) (t : table) (g : prng)
  : (exception + table) * prng :=
  match get_id u with
  | Some k =>
      if fits_int64 k then (inr (<[k := values u]> t), g)
      else (inl OverflowError, g)
  | None =>
      match new_rowid t g with
      | (Some k, g') => (inr (<[k := values u]> t), g')
      | (None, g') => (inl OperationalError, g')
      end
  end.

(** The loop of lines 76-83; an exception leaves it at once. *)
Fixpoint insertar_datos (users : list user) (t : table) (g : prng)
  : (exception + table) * prng :=
  match users with
  | [] => (inr t, g)
  | u :: users' =>
      match insert_or_replace u t g with
      | (inr t', g') => insertar_datos users' t' g'
      | (inl e, g') => (inl e, g')
      end
  end.

(** Lines 60-84 on the database file: the table is created outside any
    transaction, the inserts are committed together, and an exception in
    the loop leaves them uncommitted. *)
Definition upsert_all (users : list user) (db : database) (g : prng)
  : option exception * database * prng :=
  let t := create_table_if_not_exists db in
  match insertar_datos users t g with
  | (inr t', g') => (None, Some t', g')
  | (inl e, g') => (Some e, Some t, g')
  end.
End sqlite.

(** ** Read-back (line 87) *)

Definition rowid_le (a b : Z * row) : Prop := a.1 ≤ b.1.

#[global] Instance rowid_le_dec : RelDecision rowid_le.
Proof. intros a b. unfold rowid_le. apply _. Defined.

(** [SELECT * FROM users]: the rows of the table in rowid order. *)
Definition select_all (t : table) : list (Z * row) :=
  merge_sort rowid_le (map_to_list t).

(** The cell of a [TEXT] column. *)
Definition text_cell (v : option string) : pyobj :=
  match v with
  | Some s => PyStr s
  | None => PyNone
  end.

(** The data frame [pd.read_sql_query] builds from the rows of a result. *)
Definition read_sql_query_rows (rs : list (Z * row)) : DataFrame :=
  [ ("id", (λ r, PyInt r.1) <$> rs);
    ("name", (λ r, text_cell (name r.2)) <$> rs);
    ("username", (λ r, text_cell (username r.2)) <$> rs);
    ("email", (λ r, text_cell (email r.2)) <$> rs);
    ("phone", (λ r, text_cell (phone r.2)) <$> rs);
    ("website", (λ r, text_cell (website r.2)) <$> rs) ].

(** [pd.read_sql_query('SELECT * FROM users', conn)] *)
Definition read_sql_query (t : table) : DataFrame :=
  read_sql_query_rows (select_all t).

(** [read_all] of the specification: the stored rows, as read back. *)
Definition read_all (db : database) : list (Z * row) :=
  select_all (stored db).

(** [derive] of the specification: the data frame of a read-back with its
    calculated columns. *)
Definition derive (rs : list (Z * row)) : option DataFrame :=
  columnas_calculadas (read_sql_query_rows rs).

(** ** The fetch (lines 52-58) and the whole run *)

(** What the script uses of a response: the status code and the body as
    [response.json()] reads it, [None] when it is not well-formed JSON. *)
Record Response : Type := {
  status_code : Z;
  json : option (list user)
}.

(** [response.raise_for_status()] raises for a 4xx or a 5xx status. *)
Definition raise_for_status (r : Response) : option exception :=
  if (400 <=? status_code r) && (status_code r <? 600)
  then Some (HTTPError (status_code r))
  else None.

(** The [try] block: [requests.get] raised, or returned a response. *)
Definition fetch (got : exception + Response) : exception + list user :=
  match got with
  | inl e => inl e
  | inr response =>
      match raise_for_status response with
      | Some e => inl e
      | None =>
          match json response with
          | Some users => inr users
          | None => inl JSONDecodeError
          end
      end
  end.

Inductive stage : Type := Upsert | ReadBack | Derivation | Rendering.

(** How a run ends: [st.error] and [st.stop], an uncaught exception, or
    the tabs drawn from the data frame. *)
Inductive outcome : Type :=
  | Halted (message : exception)
  | Crashed (e : exception)
  | Rendered (df : DataFrame).

Record run (prng : Type) : Type := {
  result : outcome;
  performed : list stage;
  db_after : database;
  prng_after : prng
}.
Arguments result {_} _.
Arguments performed {_} _.
Arguments db_after {_} _.
Arguments prng_after {_} _.

Section script.
Context {prng : Type} (sqlite3_randomness : prng → Z * prng).

(** Lines 52-100 and the presentation that follows them. *)
Definition guia_apis (got : exception + Response) (db : database) (g : prng)
  : run prng :=
  match fetch got with
  | inl e =>
      {| result := Halted e; performed := []; db_after := db; prng_after := g |}
  | inr users =>
      match upsert_all sqlite3_randomness users db g with
      | (Some e, db', g') =>
          {| result := Crashed e; performed := [Upsert];
             db_after := db'; prng_after := g' |}
      | (None, db', g') =>
          match columnas_calculadas (read_sql_query (stored db')) with
          | Some df =>
              {| result := Rendered df;
                 performed := [Upsert; ReadBack; Derivation; Rendering];
                 db_after := db'; prng_after := g' |}
          | None =>
              {| result := Crashed KeyError;
                 performed := [Upsert; ReadBack; Derivation];
                 db_after := db'; prng_after := g' |}
          end
      end
  end.
End script.

(** ** The presentation (lines 105-262) *)

(** [df[[c1, ..., cn]]]: the named columns in the order asked for; [None]
    stands for [KeyError]. *)
Definition getitem_list (df : DataFrame) (cs : list string) : option DataFrame :=
  mapM (λ c, v ← getitem df c; Some (c, v)) cs.

(** [df.empty]: no rows, or no columns. *)
Definition empty (df : DataFrame) : bool := bool_decide (nrows df = 0%nat).

(** The number of cells of [s] that hold [v]. *)
Definition occurrences (v : pyobj) (s : list pyobj) : nat :=
  length (filter (λ x, x = v) s).

Definition count_ge (a b : pyobj * nat) : Prop := (b.2 ≤ a.2)%nat.

#[global] Instance count_ge_dec : RelDecision count_ge.
Proof. intros a b. unfold count_ge. apply _. Defined.

(** [s.value_counts()]: the distinct non-null values of [s], each with the
    number of its occurrences, the most frequent first. The order among
    values that occur equally often is whatever the sort leaves. *)
Definition value_counts (s : list pyobj) : list (pyobj * nat) :=
  let vs := filter (λ v, v ≠ PyNone) s in
  merge_sort count_ge ((λ v, (v, occurrences v vs)) <$> remove_dups vs).

(** Lines 166-167: the counts per domain as a frame of two columns. *)
Definition dom_counts (df : DataFrame) : option DataFrame :=
  s ← getitem df "email_domain";
  Some [ ("email_domain", (value_counts s).*1);
         ("count", (λ vc, PyInt (Z.of_nat vc.2)) <$> value_counts s) ].

(** A figure, as the data it is drawn from. *)
Inductive figure : Type :=
  | histogram (x : list pyobj)
  | bar (x y : list pyobj)
  | pie (names vals : list pyobj)
  | scatter (x y color : list pyobj)
  | bubble (x y size color : list pyobj)
  | go_table (header : list string) (cells : list (list pyobj)).

(** What tab 3 shows: the warning, or the figures in the order they are
    plotted (each is also offered as an HTML download). *)
Inductive graficos : Type :=
  | st_warning
  | st_plotly_charts (figs : list figure).

(** Lines 141-262; [None] stands for the error a missing column raises. *)
Definition tab3 (df : DataFrame) : option graficos :=
  if empty df then Some st_warning
  else
    name_length ← getitem df "name_length";
    dc ← dom_counts df;
    count ← getitem dc "count";
    email_domain ← getitem dc "email_domain";
    username_length ← getitem df "username_length";
    company_name_length ← getitem df "company_name_length";
    id ← getitem df "id";
    stored_columns ←
      getitem_list df ["id"; "name"; "username"; "email"; "phone"; "website"];
    cells ← mapM (getitem df) ["id"; "name"; "username"; "email"; "phone"; "website"];
    Some (st_plotly_charts
            [ histogram name_length;
              bar count email_domain;
              pie email_domain count;
              scatter username_length name_length name_length;
              bubble company_name_length name_length name_length id;
              go_table (columns stored_columns) cells ]).

(** Line 127: the frame tab 2 shows. *)
Definition tabla_procesada (df : DataFrame) : option DataFrame :=
  getitem_list df ["id"; "name"; "name_length"; "email"; "email_domain"].

(** ** Notions used by the statements *)

(** The store as the loop leaves it when every record carries an id that
    fits: the inserts folded from left to right. *)
Definition replace_all (users : list user) (t : table) : table :=
  foldl (λ acc u, match get_id u with
                  | Some k => <[k := values u]> acc
                  | None => acc
                  end) t users.

(** The fetch fails: [requests.get] raised (transport error, timeout), the
    status is a 4xx or a 5xx, or the body is not well-formed JSON. *)
Definition fetch_fails (got : exception + Response) : Prop :=
  match got with
  | inl _ => True
  | inr response =>
      400 ≤ status_code response < 600 ∨ json response = None
  end.

(** The cell of column [c] in row [i] of the derived data frame. *)
Definition derived_cell (rs : list (Z * row)) (c : string) (i : nat) : option pyobj :=
  df ← derive rs; col ← getitem df c; col !! i.

(** The text [astype(str)] gives for a stored [TEXT] value. *)
Definition text_of (v : option string) : string := str (text_cell v).

(** A generator whose every draw is 0, for the concrete runs below. *)
Definition zero_draws (g : unit) : Z * unit := (0, tt).

(** Two runs of lines 60-84 over the same fetched users. *)
Definition upsert_all_twice {prng : Type} (sqlite3_randomness : prng → Z * prng)
    (users : list user) (db : database) (g : prng)
  : option exception * database * prng :=
  let '(_, db1, g1) := upsert_all sqlite3_randomness users db g in
  upsert_all sqlite3_randomness users db1 g1.

Module Sample.
Definition ann : user :=
  User (Some 1) (Some "Ann") (Some "ann1") (Some "ann@x.com") None None.
Definition bo : user :=
  User (Some 2) (Some "Bo") (Some "bo2") (Some "bo@y.org") None None.
Definition ann_renamed : user :=
  User (Some 1) None (Some "ann") None None None.
Definition anonymous : user :=
  User None (Some "Cy") (Some "cy3") (Some "cy@") None None.
Definition mixed_case : row :=
  Row None None (Some "a@B.COM") None None.
Definition no_at : row :=
  Row (Some "Di") (Some "di4") (Some "no-at-sign") None None.
Definition blank : row :=
  Row None None None None None.
Definition trailing_at : row :=
  Row (Some "Ed") (Some "ed5") (Some "a@") None None.
End Sample.

(** [sep.join(pieces)] for a one-character [sep], the inverse the
    statements about [split] are read against. *)
Fixpoint join (sep : ascii) (pieces : list string) : string :=
  match pieces with
  | [] => EmptyString
  | [p] => p
  | p :: ps => p +:+ String sep (join sep ps)
  end.

(** [m] is the largest id in use, 0 standing in on an empty table. *)
Definition largest_id (t : table) (m : Z) : Prop :=
  (t = ∅ ∧ m = 0) ∨ (is_Some (t !! m) ∧ ∀ k, is_Some (t !! k) → k ≤ m).

(** Every stored id is a signed 64-bit integer. *)
Definition ids_fit (t : table) : Prop :=
  ∀ k, is_Some (t !! k) → fits_int64 k = true.

(** The last fetched record that carries the id [k]. *)
Definition last_with_id (k : Z) (users : list user) : option user :=
  last (filter (λ u, get_id u = Some k) users).

(** * Properties *)

(** ** Strings *)

Module PyFacts.
Import Py.

Lemma split_not_nil sep s : split sep s ≠ [].
Proof.
  destruct s as [|c s]; simpl; [done|].
  destruct (Ascii.eqb c sep); [done|].
  by destruct (split sep s).
Qed.

Lemma split_without sep s : contains sep s = false → split sep s = [s].
Proof.
  induction s as [|c s IH]; simpl; [done|].
  destruct (Ascii.eqb c sep); [done|].
  intros H. by rewrite (IH H).
Qed.

(** Splitting at an occurrence of the separator splits both sides. *)
Lemma split_at sep pre s :
  split sep (pre +:+ String sep s) = (split sep pre ++ split sep s)%list.
Proof.
  induction pre as [|c pre IH]; simpl.
  - by rewrite Ascii.eqb_refl.
  - destruct (Ascii.eqb c sep); rewrite IH; [done|].
    pose proof (split_not_nil sep pre). by destruct (split sep pre).
Qed.

Lemma last_split_suffix sep pre d :
  contains sep d = false →
  item_last (split sep (pre +:+ String sep d)) = Some d.
Proof.
  intros H. unfold item_last.
  by rewrite split_at, (split_without _ _ H), last_snoc.
Qed.

(** A string that contains the separator has a last occurrence of it. *)
Lemma contains_last_occurrence sep s :
  contains sep s = true →
  ∃ pre d, s = pre +:+ String sep d ∧ contains sep d = false.
Proof.
  induction s as [|c s IH]; simpl; [done|].
  destruct (contains sep s) eqn:Hs.
  - intros _. destruct (IH eq_refl) as (pre & d & -> & Hd).
    by exists (String c pre), d.
  - destruct (Ascii.eqb c sep) eqn:E; [|done].
    apply Ascii.eqb_eq in E as ->. intros _. by exists EmptyString, s.
Qed.

Lemma contains_app_sep sep pre d : contains sep (pre +:+ String sep d) = true.
Proof.
  induction pre as [|c pre IH]; simpl.
  - by rewrite Ascii.eqb_refl.
  - rewrite IH. by destruct (Ascii.eqb c sep).
Qed.

End PyFacts.

(** ** The calculated columns *)

Section derivation.
Implicit Types (rs : list (Z * row)) (r : row) (i : nat) (k : Z).

(** The derived frame is the read-back frame followed by the four
    calculated columns, each a map over the rows. *)
Lemma derive_columns rs :
  derive rs = Some ((read_sql_query_rows rs ++
    [ ("name_length", (λ kr, PyInt (Py.len (text_of (name kr.2)))) <$> rs);
      ("email_domain", (λ kr, email_domain_of (text_of (email kr.2))) <$> rs);
      ("username_length", (λ kr, PyInt (Py.len (text_of (username kr.2)))) <$> rs);
      ("company_name_length", (λ kr, PyInt (Py.len (text_of (name kr.2)))) <$> rs)
    ])%list).
Proof.
  unfold derive, columnas_calculadas, read_sql_query_rows, apply_len, astype_str.
  simpl. by rewrite <- !list_fmap_compose.
Qed.

Lemma name_length_cell rs i :
  derived_cell rs "name_length" i
  = (λ kr, PyInt (Py.len (text_of (name kr.2)))) <$> rs !! i.
Proof. unfold derived_cell. rewrite derive_columns. simpl. apply list_lookup_fmap. Qed.

Lemma email_domain_cell rs i :
  derived_cell rs "email_domain" i
  = (λ kr, email_domain_of (text_of (email kr.2))) <$> rs !! i.
Proof. unfold derived_cell. rewrite derive_columns. simpl. apply list_lookup_fmap. Qed.

Lemma username_length_cell rs i :
  derived_cell rs "username_length" i
  = (λ kr, PyInt (Py.len (text_of (username kr.2)))) <$> rs !! i.
Proof. unfold derived_cell. rewrite derive_columns. simpl. apply list_lookup_fmap. Qed.

Lemma company_name_length_cell rs i :
  derived_cell rs "company_name_length" i
  = (λ kr, PyInt (Py.len (text_of (name kr.2)))) <$> rs !! i.
Proof. unfold derived_cell. rewrite derive_columns. simpl. apply list_lookup_fmap. Qed.

Lemma email_domain_of_without x :
  Py.contains "@" x = false → email_domain_of x = PyNone.
Proof. unfold email_domain_of. by intros ->. Qed.

Lemma email_domain_of_suffix pre d :
  Py.contains "@" d = false →
  email_domain_of (pre +:+ String "@" d) = PyStr (Py.lower d).
Proof.
  intros H. unfold email_domain_of.
  by rewrite PyFacts.contains_app_sep, PyFacts.last_split_suffix.
Qed.

(** The domain is null exactly when the text has no ['@']. *)
Lemma email_domain_of_None x :
  email_domain_of x = PyNone ↔ Py.contains "@" x = false.
Proof.
  split; [|apply email_domain_of_without].
  destruct (Py.contains "@" x) eqn:E; [|done].
  destruct (PyFacts.contains_last_occurrence _ _ E) as (pre & d & -> & Hd).
  by rewrite email_domain_of_suffix.
Qed.

(** C1: for every stored row, the derived [email_domain] is the part of the
    email's text after its last ['@'], lower-cased, when that text contains
    an ['@'], and null otherwise. In particular ["a@B.COM"] gives ["b.com"],
    ["no-at-sign"] gives null and a null email gives null. *)
Theorem email_domain_column rs i k r :
  rs !! i = Some (k, r) →
  ∃ cell,
    derived_cell rs "email_domain" i = Some cell ∧
    (Py.contains "@" (text_of (email r)) = true →
       ∃ pre d, text_of (email r) = pre +:+ String "@" d ∧
                Py.contains "@" d = false ∧ cell = PyStr (Py.lower d)) ∧
    (∀ pre d, text_of (email r) = pre +:+ String "@" d →
              Py.contains "@" d = false → cell = PyStr (Py.lower d)) ∧
    (Py.contains "@" (text_of (email r)) = false → cell = PyNone) ∧
    (email r = Some "a@B.COM" → cell = PyStr "b.com") ∧
    (email r = Some "no-at-sign" → cell = PyNone) ∧
    (email r = None → cell = PyNone).
Proof.
  intros Hi. exists (email_domain_of (text_of (email r))).
  split; [by rewrite email_domain_cell, Hi|].
  split; [|split; [|split; [|split; [|split]]]].
  - intros H. destruct (PyFacts.contains_last_occurrence _ _ H) as (pre & d & E & Hd).
    exists pre, d. rewrite E at 2. by rewrite email_domain_of_suffix.
  - intros pre d -> Hd. by apply email_domain_of_suffix.
  - apply email_domain_of_without.
  - by intros ->.
  - by intros ->.
  - by intros ->.
Qed.

Lemma email_domain_column_witness :
  derived_cell [(7, Sample.mixed_case)] "email_domain" 0 = Some (PyStr "b.com").
Proof.
  destruct (email_domain_column [(7, Sample.mixed_case)] 0 7 Sample.mixed_case eq_refl)
    as (cell & Hc & _ & _ & _ & H & _).
  rewrite Hc. f_equal. exact (H eq_refl).
Defined.

(** C2: for every stored row whose name is null, the derived [name_length]
    is 4, the length of the text ["None"] that stands for the absent value
    (not 0, not null); [username_length] treats a null username alike. *)
Theorem null_name_length rs i k r :
  rs !! i = Some (k, r) →
  (name r = None →
     derived_cell rs "name" i = Some PyNone ∧
     text_of (name r) = "None" ∧
     derived_cell rs "name_length" i = Some (PyInt 4)) ∧
  (username r = None →
     derived_cell rs "username" i = Some PyNone ∧
     text_of (username r) = "None" ∧
     derived_cell rs "username_length" i = Some (PyInt 4)).
Proof.
  intros Hi. split; intros H.
  - rewrite name_length_cell, Hi. simpl. rewrite H.
    unfold derived_cell. rewrite derive_columns. simpl.
    rewrite list_lookup_fmap, Hi. simpl. by rewrite H.
  - rewrite username_length_cell, Hi. simpl. rewrite H.
    unfold derived_cell. rewrite derive_columns. simpl.
    rewrite list_lookup_fmap, Hi. simpl. by rewrite H.
Qed.

Lemma null_name_length_witness :
  derived_cell [(3, Sample.no_at); (4, Sample.blank)] "name_length" 1 = Some (PyInt 4)
  ∧ derived_cell [(3, Sample.no_at); (4, Sample.blank)] "username_length" 1
    = Some (PyInt 4).
Proof.
  destruct (null_name_length [(3, Sample.no_at); (4, Sample.blank)] 1 4 Sample.blank
              eq_refl) as [Hn Hu].
  split; [exact (proj2 (proj2 (Hn eq_refl))) | exact (proj2 (proj2 (Hu eq_refl)))].
Defined.

(** C7: the derivation of an empty table raises nothing and gives an empty
    table that carries the six stored and the four calculated columns. *)
Theorem derive_empty_table :
  ∃ df,
    derive [] = Some df ∧
    columns df = [ "id"; "name"; "username"; "email"; "phone"; "website";
                   "name_length"; "email_domain"; "username_length";
                   "company_name_length" ] ∧
    nrows df = 0%nat ∧
    Forall (λ col, col.2 = []) df ∧
    derive (select_all ∅) = Some df.
Proof.
  eexists. split; [reflexivity|].
  split; [reflexivity|]. split; [reflexivity|].
  split; [|reflexivity].
  repeat constructor.
Qed.

(** C8: [company_name_length] is [name_length] under another label: both
    columns are the lengths of the text of the same [name] column, so they
    agree on every row, null names included. *)
Theorem company_name_length_alias rs :
  ∃ df names lengths,
    derive rs = Some df ∧
    getitem df "name" = Some names ∧
    getitem df "name_length" = Some lengths ∧
    getitem df "company_name_length" = Some lengths ∧
    lengths = apply_len names ∧
    ∀ i, derived_cell rs "company_name_length" i = derived_cell rs "name_length" i.
Proof.
  eexists _, _, _. split; [apply derive_columns|].
  split; [reflexivity|]. split; [reflexivity|]. split; [reflexivity|].
  split.
  - unfold apply_len, astype_str. by rewrite <- !list_fmap_compose.
  - intros i. by rewrite company_name_length_cell, name_length_cell.
Qed.

(** C10, as amended: for every stored row whose email's text ends in ['@'],
    the derived [email_domain] is the empty string and not null, the
    containment check having succeeded; [email_domain] is null exactly on
    the rows whose email's text has no ['@'], so it is an empty
    [email_domain], not a null one, that does not tell the email lacked
    an ['@']. *)
Theorem email_domain_trailing_at rs i k r pre :
  rs !! i = Some (k, r) →
  text_of (email r) = pre +:+ "@" →
  derived_cell rs "email_domain" i = Some (PyStr "") ∧
  derived_cell rs "email_domain" i ≠ Some PyNone ∧
  Py.contains "@" (text_of (email r)) = true ∧
  ∀ j k' r', rs !! j = Some (k', r') →
    derived_cell rs "email_domain" j = Some PyNone
    ↔ Py.contains "@" (text_of (email r')) = false.
Proof.
  intros Hi E.
  assert (derived_cell rs "email_domain" i = Some (PyStr "")) as H.
  { rewrite email_domain_cell, Hi. simpl. rewrite E.
    by rewrite (email_domain_of_suffix pre ""). }
  split; [done|]. split; [by rewrite H|].
  split; [rewrite E; apply PyFacts.contains_app_sep|].
  intros j k' r' Hj. rewrite email_domain_cell, Hj. simpl.
  rewrite <- email_domain_of_None. split; congruence.
Qed.

Lemma email_domain_trailing_at_witness :
  derived_cell [(5, Sample.trailing_at)] "email_domain" 0 = Some (PyStr "").
Proof.
  exact (proj1 (email_domain_trailing_at [(5, Sample.trailing_at)] 0 5
                  Sample.trailing_at "a" eq_refl eq_refl)).
Defined.

(** C10 as stated fails in its last clause: no stored row has a null
    [email_domain] and an ['@'] in its email's text. *)
Lemma null_email_domain_tells_no_at :
  ¬ ((∀ rs i k r pre,
        rs !! i = Some (k, r) → text_of (email r) = pre +:+ "@" →
        derived_cell rs "email_domain" i = Some (PyStr "")) ∧
     (∃ rs i k r,
        rs !! i = Some (k, r) ∧
        derived_cell rs "email_domain" i = Some PyNone ∧
        Py.contains "@" (text_of (email r)) = true)).
Proof.
  intros [_ (rs & i & k & r & Hi & Hnull & Hat)].
  rewrite email_domain_cell, Hi in Hnull. simpl in Hnull.
  assert (email_domain_of (text_of (email r)) = PyNone) as H by congruence.
  apply email_domain_of_None in H. congruence.
Qed.

End derivation.

(** ** Rowids *)

Lemma foldr_max_None (l : list Z) :
  foldr (λ k acc, Some (from_option (Z.max k) k acc)) None l = None → l = [].
Proof. by destruct l. Qed.

Lemma foldr_max_bound (l : list Z) (m k : Z) :
  foldr (λ k acc, Some (from_option (Z.max k) k acc)) None l = Some m →
  k ∈ l → k ≤ m.
Proof.
  revert m. induction l as [|x l IH]; intros m; simpl; [done|].
  intros [= <-] [->|Hk]%elem_of_cons.
  - destruct (foldr _ None l); simpl; lia.
  - destruct (foldr _ None l) as [m'|] eqn:E; simpl.
    + specialize (IH m' eq_refl Hk). lia.
    + apply foldr_max_None in E as ->. by apply elem_of_nil in Hk.
Qed.

Lemma last_rowid_None (t : table) : last_rowid t = None → t = ∅.
Proof.
  intros H%foldr_max_None. apply elements_empty_inv in H.
  apply dom_empty_iff_L. by apply leibniz_equiv.
Qed.

Lemma last_rowid_bound (t : table) (m k : Z) :
  last_rowid t = Some m → is_Some (t !! k) → k ≤ m.
Proof.
  intros H Hk. apply (foldr_max_bound _ _ _ H).
  by apply elem_of_elements, elem_of_dom.
Qed.

Section store.
Context {prng : Type} (rand : prng → Z * prng).
Implicit Types (t : table) (g : prng) (u : user) (users : list user) (k : Z).

Lemma random_rowid_unused cnt t g v g' :
  random_rowid rand cnt t g = (Some v, g') → t !! v = None.
Proof.
  revert g. induction cnt as [|cnt IH]; intros g; simpl; [done|].
  destruct (rand g) as [r g1].
  destruct (t !! (Z.land r (MAX_ROWID ≫ 1) + 1)) eqn:E; [apply IH|].
  by intros [= <- <-].
Qed.

(** A NULL key is given a rowid that is not in use. *)
Lemma new_rowid_unused t g v g' : new_rowid rand t g = (Some v, g') → t !! v = None.
Proof.
  unfold new_rowid. destruct (last_rowid t) as [m|] eqn:E.
  - destruct (MAX_ROWID <=? m); [apply random_rowid_unused|].
    intros [= <- <-]. destruct (t !! (m + 1)) eqn:Hk; [|done].
    pose proof (last_rowid_bound t m (m + 1) E (mk_is_Some _ _ Hk)). lia.
  - intros _. apply last_rowid_None in E as ->. apply lookup_empty.
Qed.

(** What one statement does to the table when it succeeds. *)
Lemma insert_or_replace_inr u t g t' g' :
  insert_or_replace rand u t g = (inr t', g') →
  ∃ k, t' = <[k := values u]> t ∧
       match get_id u with
       | Some j => k = j ∧ g' = g
       | None => t !! k = None
       end.
Proof.
  unfold insert_or_replace. destruct (get_id u) as [j|].
  - destruct (fits_int64 j); [|done]. intros [= <- <-]. by exists j.
  - destruct (new_rowid rand t g) as [[v|] g1] eqn:E; [|done].
    intros [= <- <-]. exists v. split; [done|]. by eapply new_rowid_unused.
Qed.

(** A statement leaves the rows of the other ids as they are. *)
Lemma insert_or_replace_other u t g t' g' k r :
  insert_or_replace rand u t g = (inr t', g') →
  get_id u ≠ Some k → t !! k = Some r → t' !! k = Some r.
Proof.
  intros (j & -> & Hj)%insert_or_replace_inr Hne Hk.
  rewrite lookup_insert_ne; [done|]. intros ->.
  destruct (get_id u) as [i|]; [destruct Hj; congruence|congruence].
Qed.

(** A statement deletes nothing. *)
Lemma insert_or_replace_keeps u t g t' g' k :
  insert_or_replace rand u t g = (inr t', g') →
  is_Some (t !! k) → is_Some (t' !! k).
Proof.
  intros (j & -> & _)%insert_or_replace_inr Hk.
  rewrite lookup_insert. by case_decide.
Qed.

Lemma insert_or_replace_size u t g t' g' :
  insert_or_replace rand u t g = (inr t', g') →
  (size t ≤ size t')%nat ∧ (get_id u = None → size t' = S (size t)).
Proof.
  intros (j & -> & Hj)%insert_or_replace_inr. split.
  - rewrite map_size_insert. destruct (t !! j); simpl; lia.
  - intros E. rewrite E in Hj. by apply map_size_insert_None.
Qed.

(** The loop over a concatenation is the loop over its parts. *)
Lemma insertar_datos_app users1 users2 t g :
  insertar_datos rand (users1 ++ users2) t g
  = match insertar_datos rand users1 t g with
    | (inr t1, g1) => insertar_datos rand users2 t1 g1
    | (inl e, g1) => (inl e, g1)
    end.
Proof.
  revert t g. induction users1 as [|u users1 IH]; intros t g; simpl; [done|].
  destruct (insert_or_replace rand u t g) as [[e|t1] g1]; [done|]. apply IH.
Qed.

Lemma insertar_datos_other users t g t' g' k r :
  insertar_datos rand users t g = (inr t', g') →
  (∀ u, u ∈ users → get_id u ≠ Some k) →
  t !! k = Some r → t' !! k = Some r.
Proof.
  revert t g. induction users as [|u users IH]; intros t g; simpl.
  - by intros [= <- <-].
  - destruct (insert_or_replace rand u t g) as [[e|t1] g1] eqn:E; [done|].
    intros Hloop Hne Hk. apply (IH _ _ Hloop).
    + intros v Hv. apply Hne. by right.
    + eapply insert_or_replace_other; [done| |done]. apply Hne. by left.
Qed.

Lemma insertar_datos_keeps users t g t' g' k :
  insertar_datos rand users t g = (inr t', g') →
  is_Some (t !! k) → is_Some (t' !! k).
Proof.
  revert t g. induction users as [|u users IH]; intros t g; simpl.
  - by intros [= <- <-].
  - destruct (insert_or_replace rand u t g) as [[e|t1] g1] eqn:E; [done|].
    intros Hloop Hk. apply (IH _ _ Hloop). by eapply insert_or_replace_keeps.
Qed.

Lemma insertar_datos_size users t g t' g' :
  insertar_datos rand users t g = (inr t', g') →
  (size t ≤ size t')%nat ∧
  ((∃ u, u ∈ users ∧ get_id u = None) → (size t < size t')%nat).
Proof.
  revert t g. induction users as [|u users IH]; intros t g; simpl.
  - intros [= <- <-]. split; [done|]. intros (u & Hu & _). by apply elem_of_nil in Hu.
  - destruct (insert_or_replace rand u t g) as [[e|t1] g1] eqn:E; [done|].
    intros Hloop. destruct (IH _ _ Hloop) as [Hle Hlt].
    destruct (insert_or_replace_size _ _ _ _ _ E) as [Hle1 Hlt1].
    split; [lia|]. intros (v & [->|Hv]%elem_of_cons & Hnone).
    + specialize (Hlt1 Hnone). lia.
    + assert (size t1 < size t')%nat by (apply Hlt; eauto). lia.
Qed.

(** With an id on every record the loop draws no random number: it fails
    with [OverflowError] when some id does not fit, and otherwise leaves the
    inserts folded over the table. *)
Lemma insertar_datos_with_ids users t g :
  (∀ u, u ∈ users → is_Some (get_id u)) →
  insertar_datos rand users t g
  = (if forallb (λ u, from_option fits_int64 true (get_id u)) users
     then inr (replace_all users t) else inl OverflowError, g).
Proof.
  revert t. induction users as [|u users IH]; intros t Hids; simpl; [done|].
  destruct (Hids u) as [k Hk]; [by left|].
  unfold insert_or_replace. rewrite Hk. simpl.
  destruct (fits_int64 k); simpl; [|done].
  by rewrite IH; [|intros v Hv; apply Hids; by right].
Qed.

End store.

Lemma replace_all_union (users : list user) (t : table) :
  replace_all users t = replace_all users ∅ ∪ t.
Proof.
  unfold replace_all. revert t.
  induction users as [|u users IH]; intros t; simpl.
  - by rewrite (left_id_L ∅ (∪)).
  - rewrite IH. rewrite (IH (match get_id u with Some k => _ | None => _ end)).
    rewrite <- (assoc_L (∪)). f_equal.
    destruct (get_id u) as [k|].
    + by rewrite insert_empty, <- insert_union_singleton_l.
    + by rewrite (left_id_L ∅ (∪)).
Qed.

(** Folding the same inserts a second time changes nothing. *)
Lemma replace_all_idemp (users : list user) (t : table) :
  replace_all users (replace_all users t) = replace_all users t.
Proof.
  rewrite (replace_all_union users (replace_all users t)), (replace_all_union users t).
  by rewrite (assoc_L (∪)), (idemp_L (∪)).
Qed.

(** ** Read-back *)

Lemma elem_of_select_all (t : table) (k : Z) (r : row) :
  (k, r) ∈ select_all t ↔ t !! k = Some r.
Proof.
  unfold select_all. rewrite merge_sort_Permutation. apply elem_of_map_to_list.
Qed.

Lemma length_select_all (t : table) : length (select_all t) = size t.
Proof.
  unfold select_all. rewrite merge_sort_Permutation. apply length_map_to_list.
Qed.

(** No id is read back twice. *)
Lemma NoDup_select_all (t : table) : NoDup (select_all t).*1.
Proof.
  unfold select_all. rewrite merge_sort_Permutation. apply NoDup_fst_map_to_list.
Qed.

(** ** The upsert *)

(** C3: when a run commits, the row of an id that was already stored is the
    whole field set of the last fetched record with that id: every column is
    what the record carries, and a column the record lacks is null whatever
    the row held before. *)
Theorem upsert_replaces_whole_row {prng : Type} (rand : prng → Z * prng)
    (users_before : list user) (u : user) (users_after : list user)
    (k : Z) (old : row) (db : database) (g : prng) (db' : database) (g' : prng) :
  stored db !! k = Some old →
  get_id u = Some k →
  (∀ v, v ∈ users_after → get_id v ≠ Some k) →
  upsert_all rand (users_before ++ u :: users_after) db g = (None, db', g') →
  stored db' !! k
  = Some (Row (get_name u) (get_username u) (get_email u) (get_phone u) (get_website u))
  ∧ (get_name u = None → name <$> stored db' !! k = Some None)
  ∧ (get_username u = None → username <$> stored db' !! k = Some None)
  ∧ (get_email u = None → email <$> stored db' !! k = Some None)
  ∧ (get_phone u = None → phone <$> stored db' !! k = Some None)
  ∧ (get_website u = None → website <$> stored db' !! k = Some None).
Proof.
  intros _ Hid Hafter. unfold upsert_all.
  destruct (insertar_datos rand _ _ g) as [[e|t'] g1] eqn:Hrun; [done|].
  intros [= <- <-]. simpl.
  rewrite insertar_datos_app in Hrun.
  destruct (insertar_datos rand users_before _ g) as [[e|t1] g2]; [done|].
  simpl in Hrun.
  destruct (insert_or_replace rand u t1 g2) as [[e|t2] g3] eqn:Hu; [done|].
  apply insert_or_replace_inr in Hu as (j & -> & Hj).
  rewrite Hid in Hj. destruct Hj as [-> ->].
  assert (t' !! k = Some (values u)) as Hk.
  { eapply insertar_datos_other; [done|done|]. apply lookup_insert_eq. }
  rewrite Hk. unfold values. simpl.
  repeat split; by intros ->.
Qed.

Lemma upsert_replaces_whole_row_witness :
  stored (upsert_all zero_draws [Sample.bo; Sample.ann_renamed; Sample.anonymous]
            (Some {[ 1 := values Sample.ann ]}) tt).1.2 !! 1
  = Some (Row None (Some "ann") None None None).
Proof.
  refine (proj1 (upsert_replaces_whole_row zero_draws
            [Sample.bo] Sample.ann_renamed [Sample.anonymous] 1 (values Sample.ann)
            (Some {[ 1 := values Sample.ann ]}) tt _ tt _ _ _ _)).
  - reflexivity.
  - reflexivity.
  - intros v Hv. apply list_elem_of_singleton in Hv. subst v. discriminate.
  - vm_compute. reflexivity.
Defined.

(** C5: a run deletes no row, and leaves every row whose id is not among
    the fetched ids exactly as it was: in the table and in the read-back,
    whether the run commits or not. *)
Theorem upsert_keeps_other_rows {prng : Type} (rand : prng → Z * prng)
    (users : list user) (db : database) (g : prng) (k : Z) (r : row) :
  stored db !! k = Some r →
  is_Some (stored (upsert_all rand users db g).1.2 !! k) ∧
  ((∀ u, u ∈ users → get_id u ≠ Some k) →
     stored (upsert_all rand users db g).1.2 !! k = Some r ∧
     (k, r) ∈ read_all (upsert_all rand users db g).1.2).
Proof.
  intros Hk. unfold read_all, upsert_all, stored in *.
  destruct (insertar_datos rand _ _ g) as [[e|t'] g1] eqn:Hrun; simpl.
  - split; [by rewrite Hk|]. intros _. split; [done|].
    by apply elem_of_select_all.
  - split.
    + eapply insertar_datos_keeps; [done|]. by rewrite Hk.
    + intros Hne.
      assert (t' !! k = Some r) by (by eapply insertar_datos_other).
      split; [done|]. by apply elem_of_select_all.
Qed.

Lemma upsert_keeps_other_rows_witness :
  stored (upsert_all zero_draws [Sample.bo; Sample.anonymous]
            (Some {[ 1 := values Sample.ann ]}) tt).1.2 !! 1
  = Some (values Sample.ann).
Proof.
  refine (proj1 (proj2 (upsert_keeps_other_rows zero_draws
            [Sample.bo; Sample.anonymous] (Some {[ 1 := values Sample.ann ]}) tt
            1 (values Sample.ann) _) _)).
  - reflexivity.
  - intros u Hu. apply elem_of_cons in Hu as [->|Hu]; [discriminate|].
    apply list_elem_of_singleton in Hu. subst u. discriminate.
Defined.

(** With an id on every record a second run finds nothing to change. *)
Lemma upsert_all_twice_with_ids {prng : Type} (rand : prng → Z * prng)
    (users : list user) (db : database) (g : prng) :
  (∀ u, u ∈ users → is_Some (get_id u)) →
  stored (upsert_all_twice rand users db g).1.2
  = stored (upsert_all rand users db g).1.2.
Proof.
  intros Hids. unfold upsert_all_twice, upsert_all.
  rewrite (insertar_datos_with_ids rand users _ g Hids).
  destruct (forallb _ users) eqn:Hfit; simpl.
  - rewrite (insertar_datos_with_ids rand users _ g Hids), Hfit. simpl.
    apply replace_all_idemp.
  - by rewrite (insertar_datos_with_ids rand users _ g Hids), Hfit.
Qed.

(** C4, as amended: when every fetched record carries an id, a second run
    over the same sequence leaves the store, and so the read-back, as the
    first run left it; no id is read back twice. *)
Theorem upsert_all_idempotent {prng : Type} (rand : prng → Z * prng)
    (users : list user) (db : database) (g : prng) :
  (∀ u, u ∈ users → is_Some (get_id u)) →
  stored (upsert_all_twice rand users db g).1.2
  = stored (upsert_all rand users db g).1.2
  ∧ read_all (upsert_all_twice rand users db g).1.2
    = read_all (upsert_all rand users db g).1.2
  ∧ NoDup (read_all (upsert_all_twice rand users db g).1.2).*1.
Proof.
  intros Hids.
  pose proof (upsert_all_twice_with_ids rand users db g Hids) as H.
  split; [done|]. unfold read_all. rewrite H.
  split; [done|]. apply NoDup_select_all.
Qed.

Lemma upsert_all_idempotent_witness :
  read_all (upsert_all_twice zero_draws [Sample.ann; Sample.bo; Sample.ann_renamed]
              None tt).1.2
  = read_all (upsert_all zero_draws [Sample.ann; Sample.bo; Sample.ann_renamed]
                None tt).1.2.
Proof.
  refine (proj1 (proj2 (upsert_all_idempotent zero_draws
            [Sample.ann; Sample.bo; Sample.ann_renamed] None tt _))).
  intros u Hu. repeat (apply elem_of_cons in Hu as [->|Hu]; [by eexists|]).
  by apply elem_of_nil in Hu.
Defined.

(** A record without an id is stored again on every run. *)
Lemma anonymous_stored_twice {prng : Type} (rand : prng → Z * prng) (g : prng) :
  read_all (upsert_all rand [Sample.anonymous] None g).1.2
  = [(1, values Sample.anonymous)]
  ∧ read_all (upsert_all_twice rand [Sample.anonymous] None g).1.2
    = [(1, values Sample.anonymous); (2, values Sample.anonymous)].
Proof. split; vm_compute; reflexivity. Qed.

(** C4 as stated fails: a fetched record without an id is read back once
    after one run and twice after two. *)
Lemma upsert_all_twice_differs :
  read_all (upsert_all zero_draws [Sample.anonymous] None tt).1.2
  = [(1, values Sample.anonymous)]
  ∧ read_all (upsert_all_twice zero_draws [Sample.anonymous] None tt).1.2
    = [(1, values Sample.anonymous); (2, values Sample.anonymous)]
  ∧ read_all (upsert_all_twice zero_draws [Sample.anonymous] None tt).1.2
    ≠ read_all (upsert_all zero_draws [Sample.anonymous] None tt).1.2.
Proof.
  destruct (anonymous_stored_twice zero_draws tt) as [H1 H2].
  rewrite H1, H2. by repeat split.
Qed.

(** C9: the upsert is not idempotent on every input. A fetched record
    without an id is inserted with a NULL key and given a rowid not in use,
    so on an empty store one run leaves one row and two runs leave two rows
    for it. Whenever some record of the sequence has no id, a run that
    commits leaves strictly more rows than it found, and the statement of
    such a record overwrites no stored row; with an id on every record a
    second run changes nothing. *)
Theorem upsert_without_id_not_idempotent {prng : Type} (rand : prng → Z * prng) :
  (∀ g,
     read_all (upsert_all rand [Sample.anonymous] None g).1.2
     = [(1, values Sample.anonymous)]
     ∧ read_all (upsert_all_twice rand [Sample.anonymous] None g).1.2
       = [(1, values Sample.anonymous); (2, values Sample.anonymous)])
  ∧ (∀ users db g db' g',
       (∃ u, u ∈ users ∧ get_id u = None) →
       upsert_all rand users db g = (None, db', g') →
       (length (read_all db) < length (read_all db'))%nat)
  ∧ (∀ u t g t' g',
       get_id u = None →
       insert_or_replace rand u t g = (inr t', g') →
       ∃ k, t !! k = None ∧ t' = <[k := values u]> t ∧
            ∀ j r, t !! j = Some r → t' !! j = Some r)
  ∧ (∀ users db g,
       (∀ u, u ∈ users → is_Some (get_id u)) →
       read_all (upsert_all_twice rand users db g).1.2
       = read_all (upsert_all rand users db g).1.2).
Proof.
  split; [apply anonymous_stored_twice|]. split; [|split].
  - intros users db g db' g' Hnull. unfold upsert_all, read_all.
    destruct (insertar_datos rand _ _ g) as [[e|t'] g1] eqn:Hrun; [done|].
    intros [= <- <-]. simpl. rewrite !length_select_all.
    by apply (insertar_datos_size rand _ _ _ _ _ Hrun).
  - intros u t g t' g' Hid Hu.
    destruct (insert_or_replace_inr rand _ _ _ _ _ Hu) as (k & -> & Hk).
    rewrite Hid in Hk. exists k. split; [done|]. split; [done|].
    intros j r Hj. rewrite lookup_insert_ne; [done|]. congruence.
  - intros users db g Hids. unfold read_all.
    by rewrite (upsert_all_twice_with_ids rand users db g Hids).
Qed.

Lemma upsert_without_id_not_idempotent_witness :
  (length (read_all (Some {[ 1%Z := values Sample.ann ]}))
   < length (read_all (upsert_all zero_draws [Sample.ann; Sample.anonymous]
                         (Some {[ 1%Z := values Sample.ann ]}) tt).1.2))%nat.
Proof.
  refine (proj1 (proj2 (upsert_without_id_not_idempotent zero_draws))
            [Sample.ann; Sample.anonymous] (Some {[ 1 := values Sample.ann ]}) tt
            _ tt _ _).
  - exists Sample.anonymous. split; [|reflexivity]. right. left.
  - vm_compute. reflexivity.
Defined.

(** ** The fetch *)

(** Without a failure the fetch hands over the users of the body. *)
Lemma fetch_succeeds (got : exception + Response) :
  ¬ fetch_fails got →
  ∃ response users, got = inr response ∧ json response = Some users ∧
                    fetch got = inr users.
Proof.
  destruct got as [e|response]; simpl; [by intros []|].
  intros H. unfold raise_for_status.
  destruct (json response) as [users|] eqn:E; [|by destruct H; right].
  exists response, users.
  destruct (400 <=? status_code response) eqn:E1;
    destruct (status_code response <? 600) eqn:E2; simpl; try done.
  destruct H. left. lia.
Qed.

(** C6, as amended: when the fetch fails, that is [requests.get] raises
    (transport error, timeout), the status is a 4xx or a 5xx, or the body is
    not well-formed JSON, the run shows the error and stops: no upsert,
    read-back, derivation or rendering is performed and the database is left
    as it was. *)
Theorem fetch_failure_halts {prng : Type} (rand : prng → Z * prng)
    (got : exception + Response) (db : database) (g : prng) :
  fetch_fails got →
  ∃ e, fetch got = inl e ∧
       guia_apis rand got db g
       = {| result := Halted e; performed := []; db_after := db; prng_after := g |}.
Proof.
  intros Hfail.
  assert (∃ e, fetch got = inl e) as [e He].
  { destruct got as [e|response]; simpl; [by exists e|].
    unfold raise_for_status. simpl in Hfail.
    destruct ((400 <=? status_code response) && (status_code response <? 600)) eqn:E;
      [by eexists|].
    destruct Hfail as [Hs| ->]; [lia|by eexists]. }
  exists e. split; [done|]. unfold guia_apis. by rewrite He.
Qed.

Lemma fetch_failure_halts_witness :
  guia_apis zero_draws (inl Timeout) (Some {[ 1 := values Sample.ann ]}) tt
  = {| result := Halted Timeout; performed := [];
       db_after := Some {[ 1 := values Sample.ann ]}; prng_after := tt |}
  ∧ result (guia_apis zero_draws
              (inr {| status_code := 404; json := Some [Sample.bo] |}) None tt)
    = Halted (HTTPError 404).
Proof.
  split.
  - destruct (fetch_failure_halts zero_draws (inl Timeout)
                (Some {[ 1 := values Sample.ann ]}) tt I) as (e & He & ->).
    simpl in He. by injection He as <-.
  - destruct (fetch_failure_halts zero_draws
                (inr {| status_code := 404; json := Some [Sample.bo] |}) None tt)
      as (e & He & ->).
    + left. simpl. lia.
    + vm_compute in He. by injection He as <-.
Defined.

(** C6 as stated fails for a status outside 2xx that is no 4xx or 5xx: a
    response with status 300 and a well-formed body is upserted, read back,
    derived and rendered. *)
Lemma status_300_is_processed :
  performed (guia_apis zero_draws
               (inr {| status_code := 300; json := Some [Sample.ann] |}) None tt)
  = [Upsert; ReadBack; Derivation; Rendering]
  ∧ read_all (db_after (guia_apis zero_draws
                (inr {| status_code := 300; json := Some [Sample.ann] |}) None tt))
    = [(1, values Sample.ann)]
  ∧ ∃ df, result (guia_apis zero_draws
                    (inr {| status_code := 300; json := Some [Sample.ann] |}) None tt)
          = Rendered df.
Proof.
  split; [vm_compute; reflexivity|]. split; [vm_compute; reflexivity|].
  eexists. vm_compute. reflexivity.
Qed.

(** ** A whole run *)

(** What a run renders is the derivation of what it reads back. *)
Lemma guia_apis_rendered {prng : Type} (rand : prng → Z * prng)
    (got : exception + Response) (db : database) (g : prng) (df : DataFrame) :
  result (guia_apis rand got db g) = Rendered df →
  derive (read_all (db_after (guia_apis rand got db g))) = Some df.
Proof.
  unfold guia_apis. destruct (fetch got) as [e|users]; [done|].
  destruct (upsert_all rand users db g) as [[[e|] db'] g']; [done|].
  fold (derive (read_all db')).
  destruct (derive (read_all db')) as [df'|] eqn:E; simpl; [|done].
  by intros [= <-].
Qed.

(** The two users of the specification's end-to-end example. *)
Example end_to_end_two_users :
  result (guia_apis zero_draws
            (inr {| status_code := 200; json := Some [Sample.ann; Sample.bo] |})
            None tt)
  = Rendered
      [ ("id", [PyInt 1; PyInt 2]);
        ("name", [PyStr "Ann"; PyStr "Bo"]);
        ("username", [PyStr "ann1"; PyStr "bo2"]);
        ("email", [PyStr "ann@x.com"; PyStr "bo@y.org"]);
        ("phone", [PyNone; PyNone]);
        ("website", [PyNone; PyNone]);
        ("name_length", [PyInt 3; PyInt 2]);
        ("email_domain", [PyStr "x.com"; PyStr "y.org"]);
        ("username_length", [PyInt 4; PyInt 3]);
        ("company_name_length", [PyInt 3; PyInt 2]) ].
Proof. vm_compute. reflexivity. Qed.

(** * Further properties of the code *)

(** ** [split], [lower] and the domain lambda (lines 94-96) *)

Lemma eqb_lower_char_at (c : ascii) :
  Ascii.eqb (Py.lower_char c) "@" = Ascii.eqb c "@".
Proof. destruct c as [[] [] [] [] [] [] [] []]; reflexivity. Qed.

Lemma lower_char_idemp (c : ascii) :
  Py.lower_char (Py.lower_char c) = Py.lower_char c.
Proof. destruct c as [[] [] [] [] [] [] [] []]; reflexivity. Qed.

Lemma lower_idemp (s : string) : Py.lower (Py.lower s) = Py.lower s.
Proof.
  induction s as [|c s IH]; simpl; [done|]. by rewrite lower_char_idemp, IH.
Qed.



Lemma contains_lower (s : string) :
  Py.contains "@" (Py.lower s) = Py.contains "@" s.
Proof.
  induction s as [|c s IH]; simpl; [done|]. by rewrite eqb_lower_char_at, IH.
Qed.

Lemma split_lower (s : string) :
  Py.split "@" (Py.lower s) = Py.lower <$> Py.split "@" s.
Proof.
  induction s as [|c s IH]; simpl; [done|].
  rewrite eqb_lower_char_at, IH.
  destruct (Ascii.eqb c "@"); [done|]. by destruct (Py.split "@" s).
Qed.


(** X1: the pieces [split] returns hold no separator, there is one piece
    more than there are separators, and joining the pieces with the
    separator gives the string back. *)
Theorem split_join (sep : ascii) (s : string) :
  join sep (Py.split sep s) = s
  ∧ Forall (λ p, Py.contains sep p = false) (Py.split sep s)
  ∧ length (Py.split sep s)
    = S (length (filter (λ c, c = sep) (list_ascii_of_string s))).
Proof.
  induction s as [|c s (IHj & IHc & IHl)]; simpl.
  - split; [done|]. split; [by repeat constructor|done].
  - pose proof (PyFacts.split_not_nil sep s) as Hne.
    destruct (Ascii.eqb c sep) eqn:E.
    + apply Ascii.eqb_eq in E as ->.
      rewrite filter_cons_True by done. simpl. rewrite IHl.
      split; [|split; [by constructor|done]].
      destruct (Py.split sep s) as [|p ps]; [done|]. simpl in *. by rewrite IHj.
    + assert (c ≠ sep) as Hc by (by apply Ascii.eqb_neq).
      rewrite filter_cons_False by done.
      destruct (Py.split sep s) as [|p ps]; [done|].
      apply Forall_cons in IHc as [Hp Hps]. simpl in IHl.
      split; [|split; [|done]].
      * destruct ps as [|q ps]; simpl in *; by rewrite <- IHj.
      * constructor; [|done]. simpl. by rewrite E.
Qed.



(** X3: the domain does not depend on the case of the email: lower-casing
    the text before the lambda sees it changes nothing, so two emails that
    differ only in case get the same domain. *)
Theorem email_domain_case_insensitive (x y : string) :
  email_domain_of (Py.lower x) = email_domain_of x
  ∧ (Py.lower x = Py.lower y → email_domain_of x = email_domain_of y).
Proof.
  assert (∀ z, email_domain_of (Py.lower z) = email_domain_of z) as H.
  { intros z. unfold email_domain_of, Py.item_last.
    rewrite contains_lower, split_lower, fmap_last.
    destruct (Py.contains "@" z); [|done].
    destruct (last (Py.split "@" z)); simpl; [|done]. by rewrite lower_idemp. }
  split; [apply H|]. intros E. by rewrite <- (H x), <- (H y), E.
Qed.

Lemma email_domain_case_insensitive_witness :
  email_domain_of "Ann@X.com" = email_domain_of "ann@x.COM".
Proof.
  exact (proj2 (email_domain_case_insensitive "Ann@X.com" "ann@x.COM") eq_refl).
Defined.

(** ** Column assignment and the derivation (lines 93-100) *)

Lemma getitem_setitem_eq (df : DataFrame) (c : string) (v : list pyobj) :
  getitem (setitem df c v) c = Some v.
Proof.
  induction df as [|[c' v'] df IH]; simpl.
  - by rewrite decide_True.
  - destruct (decide (c' = c)) as [->|Hne]; simpl.
    + by rewrite decide_True.
    + by rewrite decide_False.
Qed.

Lemma getitem_setitem_ne (df : DataFrame) (c c' : string) (v : list pyobj) :
  c' ≠ c → getitem (setitem df c v) c' = getitem df c'.
Proof.
  intros Hne. induction df as [|[c0 v0] df IH]; simpl.
  - by rewrite decide_False.
  - destruct (decide (c0 = c)) as [->|H0]; simpl.
    + by rewrite !decide_False.
    + by rewrite IH.
Qed.

Lemma columns_setitem_in (df : DataFrame) (c : string) (v : list pyobj) :
  c ∈ columns df → columns (setitem df c v) = columns df.
Proof.
  unfold columns. induction df as [|[c' v'] df IH]; simpl.
  - by intros ?%elem_of_nil.
  - intros Hin. destruct (decide (c' = c)) as [->|Hne]; simpl; [done|].
    f_equal. apply IH. apply elem_of_cons in Hin as [->|Hin]; done.
Qed.

Lemma columns_setitem_notin (df : DataFrame) (c : string) (v : list pyobj) :
  c ∉ columns df → columns (setitem df c v) = (columns df ++ [c])%list.
Proof.
  unfold columns. induction df as [|[c' v'] df IH]; simpl; [done|].
  intros Hout. destruct (decide (c' = c)) as [->|Hne]; simpl.
  - destruct Hout. by left.
  - f_equal. apply IH. intros Hin. apply Hout. by right.
Qed.

(** X4: an assignment [df[c] = v] is read back by [df[c]], leaves every other
    column as it was, and keeps the column order: an existing label stays
    where it stands, a new one goes last. *)
Theorem setitem_getitem (df : DataFrame) (c c' : string) (v : list pyobj) :
  getitem (setitem df c v) c = Some v
  ∧ (c' ≠ c → getitem (setitem df c v) c' = getitem df c')
  ∧ (c ∈ columns df → columns (setitem df c v) = columns df)
  ∧ (c ∉ columns df → columns (setitem df c v) = (columns df ++ [c])%list).
Proof.
  split; [apply getitem_setitem_eq|].
  split; [apply getitem_setitem_ne|].
  split; [apply columns_setitem_in|apply columns_setitem_notin].
Qed.

Lemma setitem_getitem_witness :
  getitem (setitem [("name", [PyNone])] "name_length" [PyInt 4]) "name"
  = Some [PyNone].
Proof.
  refine (proj1 (proj2 (setitem_getitem [("name", [PyNone])] "name_length" "name"
                          [PyInt 4])) _).
  discriminate.
Defined.

(** X5: the derivation of a read-back never raises: whatever the rows, the
    result has the six stored columns followed by the four calculated ones,
    one cell per row in every column, and the stored columns are the ones
    that were read. *)
Theorem derive_shape (rs : list (Z * row)) :
  ∃ df,
    derive rs = Some df
    ∧ columns df = [ "id"; "name"; "username"; "email"; "phone"; "website";
                     "name_length"; "email_domain"; "username_length";
                     "company_name_length" ]
    ∧ Forall (λ col, length col.2 = length rs) df
    ∧ nrows df = length rs
    ∧ Forall (λ c, getitem df c = getitem (read_sql_query_rows rs) c)
        [ "id"; "name"; "username"; "email"; "phone"; "website" ].
Proof.
  eexists. split; [apply derive_columns|].
  split; [reflexivity|]. split; [|split].
  - repeat constructor; simpl; apply length_fmap.
  - simpl. apply length_fmap.
  - repeat constructor.
Qed.

(** X6: on any data frame the calculated columns raise [KeyError] exactly
    when [name], [email] or [username] is missing; otherwise the four
    columns hold the lengths and domains of those columns as they were, and
    every other column is left alone. *)
Theorem columnas_calculadas_keys (df : DataFrame) :
  (is_Some (columnas_calculadas df)
   ↔ is_Some (getitem df "name") ∧ is_Some (getitem df "email")
     ∧ is_Some (getitem df "username"))
  ∧ ∀ df', columnas_calculadas df = Some df' →
      getitem df' "name_length" = apply_len <$> getitem df "name"
      ∧ getitem df' "email_domain"
        = (λ s, email_domain_of <$> astype_str s) <$> getitem df "email"
      ∧ getitem df' "username_length" = apply_len <$> getitem df "username"
      ∧ getitem df' "company_name_length" = apply_len <$> getitem df "name"
      ∧ ∀ c, c ∉ [ "name_length"; "email_domain"; "username_length";
                   "company_name_length" ] →
             getitem df' c = getitem df c.
Proof.
  unfold columnas_calculadas.
  destruct (getitem df "name") as [n|] eqn:Hn; simpl;
    [|split; [split; [by intros [? ?]|by intros [[? ?] _]]|done]].
  rewrite getitem_setitem_ne by done.
  destruct (getitem df "email") as [e|] eqn:He; simpl;
    [|split; [split; [by intros [? ?]|by intros (_ & [? ?] & _)]|done]].
  rewrite getitem_setitem_ne, getitem_setitem_ne by done.
  destruct (getitem df "username") as [u|] eqn:Hu; simpl;
    [|split; [split; [by intros [? ?]|by intros (_ & _ & [? ?])]|done]].
  rewrite !getitem_setitem_ne, Hn by done. simpl.
  split; [split; [by eauto|by eexists]|].
  intros df' [= <-].
  split; [by rewrite !getitem_setitem_ne, getitem_setitem_eq by done|].
  split; [by rewrite !getitem_setitem_ne, getitem_setitem_eq by done|].
  split; [by rewrite !getitem_setitem_ne, getitem_setitem_eq by done|].
  split; [by rewrite getitem_setitem_eq|].
  intros c Hc. rewrite !getitem_setitem_ne; [done|..];
    intros ->; apply Hc; repeat constructor.
Qed.

Lemma columnas_calculadas_keys_witness :
  columnas_calculadas [("name", [PyStr "Ann"]); ("email", [PyNone])] = None.
Proof.
  destruct (columnas_calculadas
              [("name", [PyStr "Ann"]); ("email", [PyNone])]) as [df|] eqn:E;
    [|reflexivity].
  destruct (proj1 (proj1 (columnas_calculadas_keys
              [("name", [PyStr "Ann"]); ("email", [PyNone])])))
    as (_ & _ & [u Hu]); [by rewrite E|discriminate Hu].
Defined.

(** ** Rowids given to records without an id (lines 76-83) *)

Lemma foldr_max_in (l : list Z) (m : Z) :
  foldr (λ k acc, Some (from_option (Z.max k) k acc)) None l = Some m → m ∈ l.
Proof.
  revert m. induction l as [|x l IH]; intros m; simpl; [done|].
  intros [= <-]. destruct (foldr _ None l) as [m'|]; simpl; [|by left].
  destruct (Z.max_spec x m') as [[_ ->]|[_ ->]]; [right; by apply IH|by left].
Qed.

Lemma last_rowid_Some (t : table) (m : Z) :
  last_rowid t = Some m
  ↔ is_Some (t !! m) ∧ ∀ k, is_Some (t !! k) → k ≤ m.
Proof.
  split.
  - intros H. split; [|intros k; by apply last_rowid_bound].
    apply foldr_max_in in H. by apply elem_of_elements, elem_of_dom in H.
  - intros [Hm Hmax]. destruct (last_rowid t) as [m'|] eqn:E.
    + pose proof (last_rowid_bound t m' m E Hm).
      apply foldr_max_in, elem_of_elements, elem_of_dom in E.
      specialize (Hmax m' E). f_equal. lia.
    + apply last_rowid_None in E as ->. rewrite lookup_empty in Hm.
      by destruct Hm.
Qed.

Lemma last_rowid_empty : last_rowid ∅ = None.
Proof. reflexivity. Qed.

Lemma random_rowid_range {prng : Type} (rand : prng → Z * prng)
    (cnt : nat) (t : table) (g : prng) (v : Z) (g' : prng) :
  random_rowid rand cnt t g = (Some v, g') → 1 ≤ v ≤ 4611686018427387904.
Proof.
  revert g. induction cnt as [|cnt IH]; intros g; simpl; [done|].
  destruct (rand g) as [r g1].
  destruct (t !! (Z.land r (MAX_ROWID ≫ 1) + 1)); [apply IH|].
  intros [= <- <-].
  change (MAX_ROWID ≫ 1) with (Z.ones 62). rewrite Z.land_ones by lia.
  pose proof (Z.mod_pos_bound r (2 ^ 62)). lia.
Qed.

(** X7: the rowid given to a record without an id is never one in use. It
    is 1 on an empty table and one more than the largest id in use as long
    as that is below 2^63 - 1, without a random draw; once the largest id is
    2^63 - 1 it is a random id between 1 and 2^62. *)
Theorem new_rowid_fresh {prng : Type} (rand : prng → Z * prng)
    (t : table) (g : prng) (v : Z) (g' : prng) :
  new_rowid rand t g = (Some v, g') →
  t !! v = None
  ∧ (t = ∅ → v = 1 ∧ g' = g)
  ∧ (∀ m, is_Some (t !! m) → (∀ k, is_Some (t !! k) → k ≤ m) →
          (m < MAX_ROWID → v = m + 1 ∧ g' = g)
          ∧ (MAX_ROWID ≤ m → 1 ≤ v ≤ 4611686018427387904)).
Proof.
  intros H. split; [by eapply new_rowid_unused|]. unfold new_rowid in H. split.
  - intros ->. rewrite last_rowid_empty in H. by injection H as <- <-.
  - intros m Hm Hmax.
    rewrite (proj2 (last_rowid_Some t m) (conj Hm Hmax)) in H.
    destruct (MAX_ROWID <=? m) eqn:E.
    + split; [lia|]. intros _. by eapply random_rowid_range.
    + split; [|lia]. intros _. by injection H as <- <-.
Qed.

Lemma new_rowid_fresh_witness :
  ({[ 7 := values Sample.ann ]} : table) !! 8 = None.
Proof.
  exact (proj1 (new_rowid_fresh zero_draws {[ 7 := values Sample.ann ]} tt 8 tt
                  eq_refl)).
Defined.

(** ** The loop and the commit (lines 60-84) *)

Section loop.
Context {prng : Type} (rand : prng → Z * prng).
Implicit Types (t : table) (g : prng) (u : user) (users : list user) (k m : Z).

Lemma new_rowid_largest t g m :
  largest_id t m → m < MAX_ROWID → new_rowid rand t g = (Some (m + 1), g).
Proof.
  intros [[-> ->]|[Hm Hmax]] Hlt; unfold new_rowid.
  - by rewrite last_rowid_empty.
  - rewrite (proj2 (last_rowid_Some t m) (conj Hm Hmax)).
    destruct (MAX_ROWID <=? m) eqn:E; [lia|done].
Qed.

Lemma largest_id_unused t m k : largest_id t m → m < k → t !! k = None.
Proof.
  intros [[-> _]|[_ Hmax]] Hlt; [apply lookup_empty|].
  destruct (t !! k) eqn:E; [|done].
  specialize (Hmax k (mk_is_Some _ _ E)). lia.
Qed.

Lemma largest_id_insert t m (r : row) :
  largest_id t m → largest_id (<[m + 1 := r]> t) (m + 1).
Proof.
  intros H. right. split; [rewrite lookup_insert_eq; by eexists|].
  intros k. rewrite lookup_insert. case_decide; [lia|]. intros Hk.
  destruct H as [[-> _]|[_ Hmax]].
  - rewrite lookup_empty in Hk. by destruct Hk.
  - specialize (Hmax k Hk). lia.
Qed.

Lemma insertar_datos_without_ids users t g m :
  largest_id t m →
  (∀ u, u ∈ users → get_id u = None) →
  m + Z.of_nat (length users) ≤ MAX_ROWID →
  ∃ t', insertar_datos rand users t g = (inr t', g)
        ∧ (∀ i u, users !! i = Some u →
                  t' !! (m + 1 + Z.of_nat i) = Some (values u))
        ∧ (∀ k r, t !! k = Some r → t' !! k = Some r)
        ∧ size t' = (size t + length users)%nat.
Proof.
  revert t m. induction users as [|u users IH]; intros t m Hm Hnone Hroom.
  - exists t. simpl. repeat split; [done|done|lia].
  - simpl in Hroom. simpl. unfold insert_or_replace.
    rewrite (Hnone u) by by left.
    rewrite (new_rowid_largest t g m Hm) by lia.
    pose proof (largest_id_unused t m (m + 1) Hm ltac:(lia)) as Hfree.
    destruct (IH (<[m + 1 := values u]> t) (m + 1)) as (t' & Hrun & Hnew & Hold & Hsize).
    + by apply largest_id_insert.
    + intros v Hv. apply Hnone. by right.
    + lia.
    + exists t'. split; [done|]. split; [|split].
      * intros [|i] v Hv; simpl in Hv.
        -- injection Hv as <-. rewrite Z.add_0_r. apply Hold, lookup_insert_eq.
        -- replace (m + 1 + Z.of_nat (S i)) with (m + 1 + 1 + Z.of_nat i) by lia.
           by apply Hnew.
      * intros k r Hk. apply Hold. rewrite lookup_insert_ne; [done|].
        intros <-. congruence.
      * rewrite Hsize, map_size_insert_None by done. simpl. lia.
Qed.


Lemma new_rowid_fits t g v g' :
  ids_fit t → new_rowid rand t g = (Some v, g') → fits_int64 v = true.
Proof.
  intros Hfit H. unfold new_rowid in H.
  destruct (last_rowid t) as [m|] eqn:Hlast; [|by injection H as <- <-].
  apply last_rowid_Some in Hlast as [Hm _]. specialize (Hfit m Hm).
  destruct (MAX_ROWID <=? m) eqn:E.
  - apply random_rowid_range in H. unfold fits_int64, MAX_ROWID. lia.
  - injection H as <- <-. unfold fits_int64, MAX_ROWID in *. lia.
Qed.

Lemma insert_or_replace_ids_fit u t g t' g' :
  ids_fit t → insert_or_replace rand u t g = (inr t', g') → ids_fit t'.
Proof.
  intros Hfit H. unfold insert_or_replace in H.
  assert (∃ v, fits_int64 v = true ∧ t' = <[v := values u]> t) as (v & Hv & ->).
  { destruct (get_id u) as [k|].
    - destruct (fits_int64 k) eqn:Hk; [|done]. injection H as <- <-. by exists k.
    - destruct (new_rowid rand t g) as [[v|] g1] eqn:E; [|done].
      injection H as <- <-. exists v. split; [|done]. by eapply new_rowid_fits. }
  intros k. rewrite lookup_insert. case_decide; [by subst|apply Hfit].
Qed.

Lemma insertar_datos_ids_fit users t g t' g' :
  ids_fit t → insertar_datos rand users t g = (inr t', g') → ids_fit t'.
Proof.
  revert t g. induction users as [|u users IH]; intros t g Hfit; simpl.
  - by intros [= <- <-].
  - destruct (insert_or_replace rand u t g) as [[e|t1] g1] eqn:E; [done|].
    apply IH. by eapply insert_or_replace_ids_fit.
Qed.

End loop.

Lemma replace_all_lookup (users : list user) (t : table) (k : Z) :
  replace_all users t !! k
  = match last_with_id k users with
    | Some u => Some (values u)
    | None => t !! k
    end.
Proof.
  unfold replace_all, last_with_id.
  induction users as [|u users IH] using rev_ind; [done|].
  rewrite foldl_app, filter_app. simpl.
  destruct (get_id u) as [j|] eqn:Hj.
  - destruct (decide (j = k)) as [->|Hne].
    + rewrite lookup_insert_eq, filter_cons_True by done.
      by rewrite filter_nil, last_snoc.
    + rewrite lookup_insert_ne, filter_cons_False by congruence.
      by rewrite filter_nil, app_nil_r.
  - rewrite filter_cons_False by congruence.
    by rewrite filter_nil, app_nil_r.
Qed.

(** X8: records without an id are appended in fetch order under consecutive
    ids after the largest one in use (after 0 on an empty table), as long as
    these stay within 2^63 - 1: the run commits without a random draw, every
    row stored before is kept as it was, and the store grows by one row per
    record. *)
Theorem ids_assigned_in_order {prng : Type} (rand : prng → Z * prng)
    (users : list user) (db : database) (g : prng) (m : Z) :
  largest_id (stored db) m →
  (∀ u, u ∈ users → get_id u = None) →
  m + Z.of_nat (length users) ≤ MAX_ROWID →
  ∃ t', upsert_all rand users db g = (None, Some t', g)
        ∧ (∀ i u, users !! i = Some u →
                  t' !! (m + 1 + Z.of_nat i) = Some (values u))
        ∧ (∀ k r, stored db !! k = Some r → t' !! k = Some r)
        ∧ size t' = (size (stored db) + length users)%nat.
Proof.
  intros Hm Hnone Hroom. unfold upsert_all, stored in *.
  destruct (insertar_datos_without_ids rand users _ g m Hm Hnone Hroom)
    as (t' & -> & Hnew & Hold & Hsize).
  by exists t'.
Qed.

Lemma ids_assigned_in_order_witness :
  ∃ t', upsert_all zero_draws [Sample.anonymous; Sample.anonymous]
          (Some {[ 7 := values Sample.ann ]}) tt = (None, Some t', tt)
        ∧ t' !! 8 = Some (values Sample.anonymous)
        ∧ t' !! 9 = Some (values Sample.anonymous)
        ∧ size t' = 3%nat.
Proof.
  destruct (ids_assigned_in_order zero_draws [Sample.anonymous; Sample.anonymous]
              (Some {[ 7 := values Sample.ann ]}) tt 7)
    as (t' & Hrun & Hnew & _ & Hsize).
  - right. split; [by eexists|]. intros k [r Hk].
    change (({[ 7 := values Sample.ann ]} : table) !! k = Some r) in Hk.
    apply lookup_singleton_Some in Hk as [<- _]. done.
  - intros u Hu. apply elem_of_cons in Hu as [->|Hu]; [done|].
    by apply list_elem_of_singleton in Hu as ->.
  - vm_compute. discriminate.
  - exists t'. split; [done|].
    split; [exact (Hnew 0%nat Sample.anonymous eq_refl)|].
    split; [exact (Hnew 1%nat Sample.anonymous eq_refl)|done].
Defined.

(** X9: with an id on every fetched record the run draws no random number.
    When every id fits in 64 bits it commits, and each stored row is that of
    the last record carrying its id, or the old row when no record does. One
    id that does not fit makes it raise [OverflowError], and then no record
    of that fetch is stored, the ones before it included. *)
Theorem upsert_all_with_ids {prng : Type} (rand : prng → Z * prng)
    (users : list user) (db : database) (g : prng) :
  (∀ u, u ∈ users → is_Some (get_id u)) →
  ((∀ u k, u ∈ users → get_id u = Some k → fits_int64 k = true) →
     ∃ t', upsert_all rand users db g = (None, Some t', g)
           ∧ ∀ k, t' !! k = match last_with_id k users with
                            | Some u => Some (values u)
                            | None => stored db !! k
                            end)
  ∧ (∀ u k, u ∈ users → get_id u = Some k → fits_int64 k = false →
       upsert_all rand users db g = (Some OverflowError, Some (stored db), g)).
Proof.
  intros Hids. unfold upsert_all.
  rewrite (insertar_datos_with_ids rand users _ g Hids).
  destruct (forallb _ users) eqn:E.
  - rewrite forallb_forall in E. split.
    + intros _. eexists. split; [done|]. intros k. apply replace_all_lookup.
    + intros u k Hu Hk Hfit. apply list_elem_of_In in Hu.
      specialize (E u Hu). rewrite Hk in E. simpl in E. congruence.
  - split; [|done]. intros Hfit.
    assert (forallb (λ u, from_option fits_int64 true (get_id u)) users = true)
      as E'; [|congruence].
    apply forallb_forall. intros u Hu%list_elem_of_In.
    destruct (Hids u Hu) as [k Hk]. rewrite Hk. simpl. by eapply Hfit.
Qed.

Lemma upsert_all_with_ids_witness :
  upsert_all zero_draws [Sample.ann; User (Some (2 ^ 63)) None None None None None]
    None tt
  = (Some OverflowError, Some ∅, tt).
Proof.
  refine (proj2 (upsert_all_with_ids zero_draws
            [Sample.ann; User (Some (2 ^ 63)) None None None None None] None tt _)
            (User (Some (2 ^ 63)) None None None None None) (2 ^ 63) _ eq_refl eq_refl).
  - intros u Hu. apply elem_of_cons in Hu as [->|Hu]; [by eexists|].
    apply list_elem_of_singleton in Hu as ->. by eexists.
  - right. left.
Defined.

(** X10: every id a run leaves in the store is a signed 64-bit integer when
    the ids it found were, whether the ids come from the records, from the
    successor of the largest id or from the random search. *)
Theorem upsert_all_ids_fit {prng : Type} (rand : prng → Z * prng)
    (users : list user) (db : database) (g : prng) :
  ids_fit (stored db) → ids_fit (stored (upsert_all rand users db g).1.2).
Proof.
  intros Hfit. unfold upsert_all.
  destruct (insertar_datos rand users _ g) as [[e|t'] g'] eqn:E; simpl; [done|].
  by eapply insertar_datos_ids_fit.
Qed.

Lemma upsert_all_ids_fit_witness : fits_int64 1 = true.
Proof.
  apply (upsert_all_ids_fit zero_draws
           [User (Some MAX_ROWID) None None None None None; Sample.anonymous]
           None tt).
  - intros k [r Hk]. discriminate Hk.
  - vm_compute. by eexists.
Defined.

(** ** The read-back (line 87) *)

#[global] Instance rowid_le_total : Total rowid_le.
Proof. intros a b. unfold rowid_le. lia. Qed.

#[global] Instance rowid_le_trans : Transitive rowid_le.
Proof. intros a b c. unfold rowid_le. lia. Qed.



(** ** A whole run (lines 52-100) *)

Lemma id_cell (rs : list (Z * row)) (i : nat) :
  derived_cell rs "id" i = (λ kr, PyInt kr.1) <$> rs !! i.
Proof. unfold derived_cell. rewrite derive_columns. simpl. apply list_lookup_fmap. Qed.

Lemma stored_cell (rs : list (Z * row)) (i : nat) :
  derived_cell rs "name" i = (λ kr, text_cell (name kr.2)) <$> rs !! i
  ∧ derived_cell rs "username" i = (λ kr, text_cell (username kr.2)) <$> rs !! i
  ∧ derived_cell rs "email" i = (λ kr, text_cell (email kr.2)) <$> rs !! i
  ∧ derived_cell rs "phone" i = (λ kr, text_cell (phone kr.2)) <$> rs !! i
  ∧ derived_cell rs "website" i = (λ kr, text_cell (website kr.2)) <$> rs !! i.
Proof.
  unfold derived_cell. rewrite derive_columns. simpl.
  repeat split; apply list_lookup_fmap.
Qed.


Lemma upsert_all_other {prng : Type} (rand : prng → Z * prng)
    (users : list user) (db : database) (g : prng) (k : Z) (r : row) :
  stored db !! k = Some r →
  (∀ u, u ∈ users → get_id u ≠ Some k) →
  stored (upsert_all rand users db g).1.2 !! k = Some r.
Proof.
  intros Hk Hne. unfold upsert_all, stored in *.
  destruct (insertar_datos rand users _ g) as [[e|t'] g'] eqn:Hrun; simpl; [done|].
  by eapply insertar_datos_other.
Qed.

Lemma upsert_all_size {prng : Type} (rand : prng → Z * prng)
    (users : list user) (db : database) (g : prng) :
  (size (stored db) ≤ size (stored (upsert_all rand users db g).1.2))%nat.
Proof.
  unfold upsert_all, stored.
  destruct (insertar_datos rand users _ g) as [[e|t'] g'] eqn:Hrun; simpl; [done|].
  by apply (insertar_datos_size rand _ _ _ _ _ Hrun).
Qed.

(** What lies behind a rendered frame. *)
Lemma guia_apis_rendered_inv {prng : Type} (rand : prng → Z * prng)
    (got : exception + Response) (db : database) (g : prng) (df : DataFrame) :
  result (guia_apis rand got db g) = Rendered df →
  ∃ users, fetch got = inr users
           ∧ db_after (guia_apis rand got db g) = (upsert_all rand users db g).1.2
           ∧ derive (read_all (db_after (guia_apis rand got db g))) = Some df.
Proof.
  intros Hres. pose proof (guia_apis_rendered rand got db g df Hres) as Hdf.
  revert Hres Hdf. unfold guia_apis.
  destruct (fetch got) as [e|users]; [done|].
  destruct (upsert_all rand users db g) as [[[e|] db'] g'] eqn:Hup; [done|].
  destruct (columnas_calculadas _); [|done].
  cbn [result db_after]. intros _ Hdf. exists users. by rewrite Hup.
Qed.

(** X13: a run that renders shows one row per stored row, and a row stored
    by an earlier run whose id is not among the fetched ones is still
    there, with its id and its five stored fields as they were. *)
Theorem rendered_keeps_old_rows {prng : Type} (rand : prng → Z * prng)
    (got : exception + Response) (db : database) (g : prng)
    (df : DataFrame) (k : Z) (r : row) :
  result (guia_apis rand got db g) = Rendered df →
  stored db !! k = Some r →
  (∀ users u, fetch got = inr users → u ∈ users → get_id u ≠ Some k) →
  nrows df = size (stored (db_after (guia_apis rand got db g)))
  ∧ (size (stored db) ≤ nrows df)%nat
  ∧ ∃ i, Forall (λ cv, (c ← getitem df cv.1; c !! i) = Some cv.2)
           [ ("id", PyInt k); ("name", text_cell (name r));
             ("username", text_cell (username r)); ("email", text_cell (email r));
             ("phone", text_cell (phone r)); ("website", text_cell (website r)) ].
Proof.
  intros Hres Hk Hne.
  destruct (guia_apis_rendered_inv rand got db g df Hres) as (users & Hfetch & Hdb & Hdf).
  rewrite Hdb in *.
  set (db' := (upsert_all rand users db g).1.2) in *.
  assert (nrows df = size (stored db')) as Hrows.
  { rewrite derive_columns in Hdf. injection Hdf as <-. simpl.
    rewrite length_fmap. apply length_select_all. }
  split; [done|]. split; [rewrite Hrows; apply upsert_all_size|].
  pose proof (upsert_all_other rand users db g k r Hk (λ u, Hne users u Hfetch))
    as Hkeep.
  fold db' in Hkeep. apply elem_of_select_all, list_elem_of_lookup in Hkeep as [i Hi].
  exists i. fold (read_all db') in Hi.
  pose proof (id_cell (read_all db') i) as Hid.
  pose proof (stored_cell (read_all db') i) as (Hn & Hu & He & Hp & Hw).
  unfold derived_cell in *. rewrite Hdf, Hi in *. simpl in *.
  repeat constructor; simpl; done.
Qed.

Lemma rendered_keeps_old_rows_witness :
  nrows [ ("id", [PyInt 1; PyInt 2]);
          ("name", [PyStr "Ann"; PyStr "Bo"]);
          ("username", [PyStr "ann1"; PyStr "bo2"]);
          ("email", [PyStr "ann@x.com"; PyStr "bo@y.org"]);
          ("phone", [PyNone; PyNone]);
          ("website", [PyNone; PyNone]);
          ("name_length", [PyInt 3; PyInt 2]);
          ("email_domain", [PyStr "x.com"; PyStr "y.org"]);
          ("username_length", [PyInt 4; PyInt 3]);
          ("company_name_length", [PyInt 3; PyInt 2]) ]
  = size (stored (db_after (guia_apis zero_draws
              (inr {| status_code := 200; json := Some [Sample.bo] |})
              (Some {[ 1 := values Sample.ann ]}) tt))).
Proof.
  refine (proj1 (rendered_keeps_old_rows zero_draws
            (inr {| status_code := 200; json := Some [Sample.bo] |})
            (Some {[ 1 := values Sample.ann ]}) tt _ 1 (values Sample.ann) _ _ _)).
  - vm_compute. reflexivity.
  - reflexivity.
  - intros users u [= <-] Hu. apply list_elem_of_singleton in Hu as ->. discriminate.
Defined.

(** ** The counts per domain (lines 166-167) *)

#[global] Instance count_ge_total : Total count_ge.
Proof. intros a b. unfold count_ge. lia. Qed.

Lemma occurrences_cons (v x : pyobj) (s : list pyobj) :
  occurrences v (x :: s)
  = ((if decide (x = v) then 1 else 0) + occurrences v s)%nat.
Proof.
  unfold occurrences. destruct (decide (x = v)) as [E|E].
  - by rewrite filter_cons_True.
  - by rewrite filter_cons_False.
Qed.

Lemma occurrences_0 (v : pyobj) (s : list pyobj) : v ∉ s → occurrences v s = 0%nat.
Proof.
  induction s as [|x s IH]; [done|]. intros Hv. rewrite occurrences_cons.
  rewrite decide_False by (intros ->; apply Hv; by left).
  rewrite IH; [done|]. intros ?. apply Hv. by right.
Qed.

Lemma occurrences_pos (v : pyobj) (s : list pyobj) :
  v ∈ s → (0 < occurrences v s)%nat.
Proof.
  induction s as [|x s IH]; [by intros ?%elem_of_nil|].
  rewrite occurrences_cons. intros [->|Hv]%elem_of_cons.
  - rewrite decide_True by done. lia.
  - specialize (IH Hv). lia.
Qed.

Lemma sum_occurrences_cons (x : pyobj) (s vs : list pyobj) :
  NoDup vs →
  sum_list_with (λ v, occurrences v (x :: s)) vs
  = (sum_list_with (λ v, occurrences v s) vs + if decide (x ∈ vs) then 1 else 0)%nat.
Proof.
  induction 1 as [|v vs Hv Hvs IH]; simpl; [done|].
  rewrite IH, occurrences_cons.
  destruct (decide (x = v)) as [->|Hne].
  - rewrite (decide_True (P := v ∈ v :: vs)) by by left.
    rewrite (decide_False (P := v ∈ vs)) by done. lia.
  - destruct (decide (x ∈ vs)) as [Hin|Hout].
    + rewrite (decide_True (P := x ∈ v :: vs)) by by right. lia.
    + rewrite (decide_False (P := x ∈ v :: vs)); [lia|].
      by intros [->|?]%elem_of_cons.
Qed.

(** The occurrences of the distinct values add up to the length. *)
Lemma sum_occurrences (s : list pyobj) :
  sum_list_with (λ v, occurrences v s) (remove_dups s) = length s.
Proof.
  induction s as [|x s IH]; [done|].
  assert (sum_list_with (λ v, occurrences v (x :: s)) (remove_dups s)
          = (length s + if decide (x ∈ s) then 1 else 0)%nat) as H.
  { rewrite sum_occurrences_cons by apply NoDup_remove_dups. rewrite IH.
    destruct (decide (x ∈ s)) as [Hin|Hout].
    - rewrite decide_True; [done|]. by apply elem_of_remove_dups.
    - rewrite decide_False; [done|]. by rewrite elem_of_remove_dups. }
  simpl. destruct (decide_rel elem_of x s) as [Hin|Hout].
  - rewrite H, decide_True by done. lia.
  - simpl. rewrite H, decide_False by done.
    rewrite occurrences_cons, decide_True, (occurrences_0 x s) by done. lia.
Qed.

Lemma occurrences_filter (v : pyobj) (s : list pyobj) :
  v ≠ PyNone → occurrences v (filter (λ x, x ≠ PyNone) s) = occurrences v s.
Proof.
  intros Hv. induction s as [|x s IH]; [done|].
  destruct (decide (x = PyNone)) as [->|Hx].
  - rewrite filter_cons_False by (by intros ?).
    rewrite occurrences_cons, decide_False by done. done.
  - rewrite filter_cons_True by done. by rewrite !occurrences_cons, IH.
Qed.

Lemma elem_of_value_counts (s : list pyobj) (v : pyobj) (n : nat) :
  (v, n) ∈ value_counts s ↔ v ≠ PyNone ∧ v ∈ s ∧ n = occurrences v s.
Proof.
  unfold value_counts. rewrite merge_sort_Permutation, list_elem_of_fmap. split.
  - intros (w & [= -> ->] & Hw).
    apply elem_of_remove_dups, list_elem_of_filter in Hw as [Hne Hin].
    by rewrite occurrences_filter.
  - intros (Hne & Hin & ->). exists v. split; [by rewrite occurrences_filter|].
    by apply elem_of_remove_dups, list_elem_of_filter.
Qed.

Lemma NoDup_value_counts (s : list pyobj) : NoDup (value_counts s).*1.
Proof.
  unfold value_counts. rewrite merge_sort_Permutation, <- list_fmap_compose.
  change (fst ∘ _) with (@id pyobj). rewrite list_fmap_id.
  apply NoDup_remove_dups.
Qed.

Lemma sum_list_with_paired (f : pyobj → nat) (l : list pyobj) :
  sum_list_with snd ((λ v, (v, f v)) <$> l) = sum_list_with f l.
Proof. induction l as [|v l IH]; simpl; [done|]. f_equal. apply IH. Qed.

Lemma sum_value_counts (s : list pyobj) :
  sum_list_with snd (value_counts s) = length (filter (λ v, v ≠ PyNone) s).
Proof.
  unfold value_counts. rewrite merge_sort_Permutation, sum_list_with_paired.
  apply sum_occurrences.
Qed.

Lemma occurrences_fmap {A} (f : A → pyobj) (v : pyobj) (l : list A) :
  occurrences v (f <$> l) = length (filter (λ a, f a = v) l).
Proof.
  induction l as [|a l IH]; [done|]. rewrite fmap_cons, occurrences_cons, IH.
  destruct (decide (f a = v)) as [E|E].
  - by rewrite filter_cons_True.
  - by rewrite filter_cons_False.
Qed.

Lemma length_filter_domains (rs : list (Z * row)) :
  length (filter (λ v, v ≠ PyNone)
            ((λ kr, email_domain_of (text_of (email kr.2))) <$> rs))
  = length (filter (λ kr : Z * row, Py.contains "@" (text_of (email kr.2)) = true) rs).
Proof.
  induction rs as [|kr rs IH]; [done|]. rewrite fmap_cons.
  destruct (Py.contains "@" (text_of (email kr.2))) eqn:E.
  - rewrite filter_cons_True, (filter_cons_True (λ kr, Py.contains _ _ = true)).
    + simpl. by rewrite IH.
    + done.
    + intros H%email_domain_of_None. congruence.
  - rewrite filter_cons_False, (filter_cons_False (λ kr, Py.contains _ _ = true)).
    + done.
    + congruence.
    + intros H. apply H. by apply email_domain_of_None.
Qed.

(** X14: the counts behind the bar and the donut chart. Every domain is
    listed once with the number of stored rows that have it, the most
    frequent first; a row whose email's text has no ['@'] is counted
    nowhere, so the counts add up to the number of rows with an ['@']. *)
Theorem dom_counts_of_derived (rs : list (Z * row)) :
  ∃ df vc,
    derive rs = Some df
    ∧ dom_counts df
      = Some [ ("email_domain", vc.*1);
               ("count", (λ c, PyInt (Z.of_nat c.2)) <$> vc) ]
    ∧ NoDup vc.*1
    ∧ Sorted count_ge vc
    ∧ (∀ v n, (v, n) ∈ vc ↔
         v ≠ PyNone ∧ (0 < n)%nat
         ∧ n = length (filter (λ kr, email_domain_of (text_of (email kr.2)) = v) rs))
    ∧ sum_list_with snd vc
      = length (filter (λ kr : Z * row,
                          Py.contains "@" (text_of (email kr.2)) = true) rs).
Proof.
  eexists _, (value_counts ((λ kr, email_domain_of (text_of (email kr.2))) <$> rs)).
  split; [apply derive_columns|]. split; [reflexivity|].
  split; [apply NoDup_value_counts|].
  split; [apply Sorted_merge_sort; apply _|]. split.
  - intros v n. rewrite elem_of_value_counts, occurrences_fmap. split.
    + intros (Hne & Hin & ->). split; [done|]. split; [|done].
      rewrite <- occurrences_fmap. by apply occurrences_pos.
    + intros (Hne & Hpos & ->). split; [done|]. split; [|done].
      rewrite <- occurrences_fmap in Hpos.
      destruct (decide (v ∈ (λ kr : Z * row, email_domain_of (text_of (email kr.2))) <$> rs))
        as [Hin|Hout]; [done|].
      rewrite (occurrences_0 _ _ Hout) in Hpos. lia.
  - rewrite sum_value_counts. apply length_filter_domains.
Qed.

(** ** Tab 3 and the column selections (lines 127, 141-262) *)

(** X15: on the frame derived from the stored rows tab 3 shows only the
    warning when there is no row; with at least one row it plots the six
    figures without an error, the bubble chart has the name lengths on both
    axes and as sizes, and the table shows the six stored columns with one
    cell per row. *)
Theorem tab3_of_derived (rs : list (Z * row)) :
  ∃ df,
    derive rs = Some df
    ∧ (rs = [] → tab3 df = Some st_warning)
    ∧ (rs ≠ [] →
       ∃ lengths count domains usernames ids cells,
         tab3 df
         = Some (st_plotly_charts
                   [ histogram lengths;
                     bar count domains;
                     pie domains count;
                     scatter usernames lengths lengths;
                     bubble lengths lengths lengths ids;
                     go_table ["id"; "name"; "username"; "email"; "phone"; "website"]
                       cells ])
         ∧ getitem df "name_length" = Some lengths
         ∧ mapM (getitem (read_sql_query_rows rs))
             ["id"; "name"; "username"; "email"; "phone"; "website"] = Some cells
         ∧ Forall (λ c, length c = length rs) cells).
Proof.
  eexists. split; [apply derive_columns|]. split.
  - by intros ->.
  - intros Hne. destruct rs as [|kr rs]; [done|].
    eexists _, _, _, _, _, _. split; [reflexivity|].
    split; [reflexivity|]. split; [reflexivity|].
    repeat constructor; simpl; by rewrite length_fmap.
Qed.

Lemma getitem_list_Some (df sel : DataFrame) (cs : list string) :
  getitem_list df cs = Some sel →
  columns sel = cs ∧ Forall (λ cv, getitem df cv.1 = Some cv.2) sel.
Proof.
  unfold getitem_list, columns. revert sel.
  induction cs as [|c cs IH]; intros sel.
  - intros [= <-]. by split.
  - intros H. apply mapM_Some_1, Forall2_cons_inv_l in H as (cv & sel' & Hc & Hrest & ->).
    apply mapM_Some_2 in Hrest. destruct (IH _ Hrest) as [Hcols Hall].
    destruct (getitem df c) as [v|] eqn:E; [|done]. injection Hc as <-.
    split; [by rewrite fmap_cons, Hcols|]. by constructor.
Qed.

(** X16: a selection [df[[c1, ..., cn]]] raises [KeyError] exactly when one
    of the labels is missing; otherwise it has the columns asked for, in the
    order asked for, each with the cells it has in [df]. *)
Theorem getitem_list_keys (df : DataFrame) (cs : list string) :
  (getitem_list df cs = None ↔ ∃ c, c ∈ cs ∧ getitem df c = None)
  ∧ ∀ sel, getitem_list df cs = Some sel →
      columns sel = cs ∧ Forall (λ cv, getitem df cv.1 = Some cv.2) sel.
Proof.
  split; [|intros sel; apply getitem_list_Some].
  unfold getitem_list. split.
  - intros H. apply mapM_None_1, Exists_exists in H as (c & Hc & H).
    exists c. split; [done|]. by destruct (getitem df c).
  - intros (c & Hc & H). apply mapM_None_2, Exists_exists.
    exists c. split; [done|]. by rewrite H.
Qed.

Lemma getitem_list_keys_witness :
  getitem_list [("id", [PyInt 1]); ("name", [PyNone])] ["id"; "email"] = None.
Proof.
  apply (proj1 (getitem_list_keys [("id", [PyInt 1]); ("name", [PyNone])]
                  ["id"; "email"])).
  exists "email". split; [|reflexivity]. right. left.
Defined.

(** The table of tab 2 never raises on a derived frame: it has the columns
    [id], [name], [name_length], [email] and [email_domain], each as in the
    derived frame, one row per stored row. *)
Lemma tabla_procesada_of_derived (rs : list (Z * row)) :
  ∃ df sel,
    derive rs = Some df
    ∧ tabla_procesada df = Some sel
    ∧ columns sel = ["id"; "name"; "name_length"; "email"; "email_domain"]
    ∧ Forall (λ cv, getitem df cv.1 = Some cv.2 ∧ length cv.2 = length rs) sel.
Proof.
  eexists _, _. split; [apply derive_columns|]. split; [reflexivity|].
  split; [reflexivity|]. repeat constructor; simpl; by rewrite length_fmap.
Qed.
